(** * Box grouping for click-to-copy OCR overlays

    A shallow embedding of [project1.py]: the geometry helpers
    ([merge_boxes], [is_nearby], [is_nearby_parag]), the two grouping passes
    ([group_text_boxes], [check_paragraph]) and the click handler
    ([mouse_callback]).

    In the grouping passes coordinates and thresholds are pixel quantities
    and are modelled as integers ([Z]); Python's [abs], [min] and [max] are
    [Z.abs], [Z.min] and [Z.max].  A box is the list of four corner points
    the detector returns; the code indexes corners 0..3 and coordinates
    0..1, so a box is a record of four points.  The click handler converts
    every corner with [int(...)] before it compares; there a coordinate is
    any number (a rational) and [int] truncates it toward zero, and
    [str.lower] is a parameter.

    The file has two layers.  The first is the value-level reading of the
    code (lists of groups in, lists of groups out).  The second, in
    [Module Store], keeps Python's object identities: lists, [[box, text]]
    groups, detection tuples and boxes live in a store, [results.sort] and
    the slot assignments update it in place, and the value-level functions
    are shown to compute what the store-level ones leave behind. *)

From Stdlib Require Import ZArith QArith Lia Ascii String Sorting.Sorted Permutation.
From stdpp Require Import base list strings numbers sorting.

Local Open Scope Z_scope.

(** ** Geometry *)

Definition point : Type := Z * Z.

(** [p[0]] and [p[1]] of a point. *)
Definition px (p : point) : Z := fst p.
Definition py (p : point) : Z := snd p.

(** [box[0]] .. [box[3]]: top-left, top-right, bottom-right, bottom-left. *)
Record Box : Type := mkBox { c0 : point; c1 : point; c2 : point; c3 : point }.

(** [def merge_boxes(box1, box2)] *)
Definition merge_boxes (box1 box2 : Box) : Box :=
  let top_left :=
    (Z.min (px (c0 box1)) (px (c0 box2)), Z.min (py (c0 box1)) (py (c0 box2))) in
  let bottom_right :=
    (Z.max (px (c2 box1)) (px (c2 box2)), Z.max (py (c2 box1)) (py (c2 box2))) in
  mkBox top_left
        (px bottom_right, py top_left)
        bottom_right
        (px top_left, py bottom_right).

(** [def is_nearby(box1, box2, x_threshold, y_threshold, font_threshold)] *)
Definition is_nearby (box1 box2 : Box) (x_threshold y_threshold font_threshold : Z) : bool :=
  let x_dist := Z.abs (px (c2 box1) - px (c0 box2)) in
  let y_dist := Z.abs (py (c0 box1) - py (c0 box2)) in
  let height1 := py (c2 box1) - py (c0 box1) in
  let height2 := py (c2 box2) - py (c0 box2) in
  let font_size_similar := Z.abs (height1 - height2) <? font_threshold in
  (x_dist <? x_threshold) && (y_dist <? y_threshold) && font_size_similar.

(** [def is_nearby_parag(box1, box2, parag_y_threshold, parag_x_threshold)] *)
Definition is_nearby_parag (box1 box2 : Box) (parag_y_threshold parag_x_threshold : Z) : bool :=
  let parag_dist_y := Z.abs (py (c3 box1) - py (c0 box2)) in
  let parag_dist_x := Z.abs (px (c0 box1) - px (c0 box2)) in
  (parag_dist_y <? parag_y_threshold) && (parag_dist_x <? parag_x_threshold).

(** *** Predicates on boxes used by the statements *)

(** A point lies within or on the boundary of the extent that [r] spans
    between its corners 0 and 2. *)
Definition inside (r : Box) (p : point) : Prop :=
  px (c0 r) <= px p <= px (c2 r) /\ py (c0 r) <= py p <= py (c2 r).

(** Every one of the four corners of [a] lies within [r]. *)
Definition contains (r a : Box) : Prop :=
  inside r (c0 a) /\ inside r (c1 a) /\ inside r (c2 a) /\ inside r (c3 a).

(** The invariant [x_min <= x_max], [y_min <= y_max] read on corners 0/2. *)
Definition wf02 (b : Box) : Prop :=
  px (c0 b) <= px (c2 b) /\ py (c0 b) <= py (c2 b).

(** Corners 1 and 3 are the ones the extent of corners 0/2 dictates. *)
Definition winding (b : Box) : Prop :=
  c1 b = (px (c2 b), py (c0 b)) /\ c3 b = (px (c0 b), py (c2 b)).

(** A well-formed axis-aligned rectangle in the fixed winding order. *)
Definition rect (b : Box) : Prop := wf02 b /\ winding b.

(** All four corners of a box lie within the extent of its own corners 0/2. *)
Definition own_extent (b : Box) : Prop := contains b b.

#[global] Instance inside_dec r p : Decision (inside r p).
Proof. unfold inside. apply _. Defined.
#[global] Instance contains_dec r a : Decision (contains r a).
Proof. unfold contains. apply _. Defined.
#[global] Instance wf02_dec b : Decision (wf02 b).
Proof. unfold wf02. apply _. Defined.
#[global] Instance point_eq_dec : EqDecision point.
Proof. unfold point. apply _. Defined.
#[global] Instance winding_dec b : Decision (winding b).
Proof. unfold winding. apply _. Defined.
#[global] Instance rect_dec b : Decision (rect b).
Proof. unfold rect. apply _. Defined.
#[global] Instance Box_eq_dec : EqDecision Box.
Proof. solve_decision. Defined.

(** ** Detections and groups *)

(** A detection is the tuple [(box, text, confidence)] the reader returns;
    the confidence is carried along and never read. *)
Record detection : Type := mkDet { det_box : Box; det_text : string; det_conf : Q }.

(** A group is the two-element list [[box, text]]. *)
Definition Group : Type := Box * string.

(** [result[:2]] *)
Definition first_two (result : detection) : Group := (det_box result, det_text result).

(** The sort key [lambda x: (x[0][0][1], x[0][0][0])]. *)
Definition sort_key (x : detection) : Z * Z :=
  (py (c0 (det_box x)), px (c0 (det_box x))).

(** Python's [<] on two-element tuples of integers. *)
Definition tuple_ltb (a b : Z * Z) : bool :=
  (a.1 <? b.1) || ((a.1 =? b.1) && (a.2 <? b.2)).

Definition tuple_le (a b : Z * Z) : Prop :=
  a.1 < b.1 \/ (a.1 = b.1 /\ a.2 <= b.2).

Definition key_le {A : Type} (key : A -> Z * Z) (d e : A) : Prop :=
  tuple_le (key d) (key e).

(** [list.sort(key=...)] is a stable sort that compares keys with [<]: an
    element stays behind every element whose key is not greater than its
    own.  Stable insertion computes the one list with that property. *)
Fixpoint insert_by_key {A : Type} (key : A -> Z * Z) (x : A) (l : list A) : list A :=
  match l with
  | [] => [x]
  | y :: l' =>
      if tuple_ltb (key y) (key x) then y :: insert_by_key key x l'
      else x :: y :: l'
  end.

Definition sort_by_key {A : Type} (key : A -> Z * Z) (l : list A) : list A :=
  foldr (insert_by_key key) [] l.

(** ** Line grouping *)

(** One iteration of [for result in results] in [group_text_boxes];
    [last grouped_texts] is [grouped_texts[-1]], guarded by the truth value
    of [grouped_texts]. *)
Definition line_step (x_threshold y_threshold font_threshold : Z)
    (grouped_texts : list Group) (result : detection) : list Group :=
  let '(box, text) := first_two result in
  match last grouped_texts with
  | Some (gbox, gtext) =>
      if is_nearby gbox box x_threshold y_threshold font_threshold
      then
        let gtext' := gtext +:+ (" " +:+ text) in
        <[ pred (length grouped_texts) := (merge_boxes gbox box, gtext') ]> grouped_texts
      else grouped_texts ++ [(box, text)]
  | None => grouped_texts ++ [(box, text)]
  end.

(** [def group_text_boxes(results, x_threshold, y_threshold, font_threshold)],
    as a function of the value of [results] at the call. *)
Definition group_text_boxes (results : list detection)
    (x_threshold y_threshold font_threshold : Z) : list Group :=
  let grouped_texts := [] in
  let results := sort_by_key sort_key results in
  fold_left (line_step x_threshold y_threshold font_threshold) results grouped_texts.

(** The defaults of the signature. *)
Definition x_threshold_default : Z := 50.
Definition y_threshold_default : Z := 90.
Definition font_threshold_default : Z := 10.

(** ** Paragraph grouping *)

(** The exceptions of the model: [IndexError] is what [grouped_texts[0]]
    raises on an empty list; [Stuck] is used by the store layer only. *)
Inductive exn : Type := IndexError | Stuck.

(** The inner [for i, (box2, text2) in enumerate(boxes)] with its [break]:
    [Some boxes'] when a paragraph absorbed [(box1, text1)] ([merged] is
    [True]), [None] when the scan ran to the end. *)
Fixpoint scan_boxes (parag_y_threshold parag_x_threshold : Z)
    (boxes : list Group) (box1 : Box) (text1 : string) : option (list Group) :=
  match boxes with
  | [] => None
  | (box2, text2) :: rest =>
      if is_nearby_parag box2 box1 parag_y_threshold parag_x_threshold
      then Some ((merge_boxes box2 box1, text2 +:+ (" " +:+ text1)) :: rest)
      else cons (box2, text2) <$> scan_boxes parag_y_threshold parag_x_threshold rest box1 text1
  end.

(** One iteration of [for box1, text1 in grouped_texts[1:]]. *)
Definition parag_step (parag_y_threshold parag_x_threshold : Z)
    (boxes : list Group) (g : Group) : list Group :=
  let '(box1, text1) := g in
  match scan_boxes parag_y_threshold parag_x_threshold boxes box1 text1 with
  | Some boxes' => boxes'
  | None => boxes ++ [(box1, text1)]
  end.

(** [def check_paragraph(grouped_texts, parag_y_threshold, parag_x_threshold)],
    as a function of the values of the line groups at the call;
    [grouped_texts[0]] raises [IndexError] on the empty list.  The loop
    reads each later group when it reaches it, so this is what the code
    computes when [grouped_texts[0]] does not occur a second time in the
    list (lemma [check_paragraph_effect]), as in every list
    [group_text_boxes] returns. *)
Definition check_paragraph (grouped_texts : list Group)
    (parag_y_threshold parag_x_threshold : Z) : exn + list Group :=
  match grouped_texts with
  | [] => inl IndexError
  | first :: rest =>
      inr (fold_left (parag_step parag_y_threshold parag_x_threshold) rest [first])
  end.

Definition parag_y_threshold_default : Z := 5.
Definition parag_x_threshold_default : Z := 47.

(** [check_paragraph(group_text_boxes(results))] as [main] chains them. *)
Definition pipeline (results : list detection) : exn + list Group :=
  check_paragraph
    (group_text_boxes results x_threshold_default y_threshold_default font_threshold_default)
    parag_y_threshold_default parag_x_threshold_default.

(** ** Click handler *)

(** [cv2.EVENT_LBUTTONDOWN] *)
Definition EVENT_LBUTTONDOWN : Z := 1.

(** What the handler can change: the strings handed to [pyperclip.copy]
    and the lines printed, oldest first.  The clipboard holds the last
    string copied. *)
Record world : Type := mkWorld { copied : list string; printed : list string }.

Definition clipboard (w : world) : option string := last (copied w).

(** A coordinate as the handler receives it is a Python number: an int or
    a finite float, in both cases a rational.  (A NaN or an infinity makes
    [int] raise; such boxes are outside this type.) *)
Definition qpoint : Type := Q * Q.

Definition qx (p : qpoint) : Q := fst p.
Definition qy (p : qpoint) : Q := snd p.

(** A box and a group whose corner coordinates are numbers. *)
Record QBox : Type := mkQBox { q0 : qpoint; q1 : qpoint; q2 : qpoint; q3 : qpoint }.

Definition QGroup : Type := QBox * string.

(** [int(v)]: the number truncated toward zero; an int is returned as it is. *)
Definition int (v : Q) : Z := Z.quot (Qnum v) (Z.pos (Qden v)).

(** The groups the grouping passes return, with their integer coordinates
    read as numbers. *)
Definition number_point (p : point) : qpoint := (inject_Z (px p), inject_Z (py p)).

Definition number_box (b : Box) : QBox :=
  mkQBox (number_point (c0 b)) (number_point (c1 b))
         (number_point (c2 b)) (number_point (c3 b)).

Definition number_group (g : Group) : QGroup := (number_box g.1, g.2).

Section click.

(** [str.lower].  Texts are byte strings in UTF-8; the case tables that
    [str.lower] applies belong to the interpreter, so the function is a
    parameter of the handler. *)
Variable lower : string -> string.

(** The body of [for box, text in results] in [mouse_callback]. *)
Fixpoint click_loop (results : list QGroup) (x y : Z) (w : world) : world :=
  match results with
  | [] => w
  | (box, text) :: rest =>
      let top_left := (int (qx (q0 box)), int (qy (q0 box))) in
      let bottom_right := (int (qx (q2 box)), int (qy (q2 box))) in
      if (top_left.1 <=? x) && (x <=? bottom_right.1)
         && ((top_left.2 <=? y) && (y <=? bottom_right.2))
      then
        let w1 := mkWorld (copied w ++ [lower text]) (printed w) in
        let w2 := mkWorld (copied w1) (printed w1 ++ ["Copied text: " +:+ lower text]) in
        click_loop rest x y w2
      else click_loop rest x y w
  end.

(** [def mouse_callback(event, x, y, flags, param)] with
    [param = (results, img)]. *)
Definition mouse_callback {Img : Type} (event x y flags : Z)
    (param : list QGroup * Img) (w : world) : world :=
  if event =? EVENT_LBUTTONDOWN then
    let '(results, img) := param in
    click_loop results x y w
  else w.

End click.

(** What is known of [str.lower] without its tables: on a text of ASCII
    characters it turns the letters A to Z into a to z and leaves every
    other character as it is. *)
Definition ascii_lower_char (c : ascii) : ascii :=
  let n := nat_of_ascii c in
  if ((65 <=? n) && (n <=? 90))%nat then ascii_of_nat (n + 32) else c.

Fixpoint ascii_lower (s : string) : string :=
  match s with
  | EmptyString => EmptyString
  | String c s' => String (ascii_lower_char c) (ascii_lower s')
  end.

Fixpoint ascii_only (s : string) : bool :=
  match s with
  | EmptyString => true
  | String c s' => (nat_of_ascii c <? 128)%nat && ascii_only s'
  end.

Definition lowers_ascii (lower : string -> string) : Prop :=
  forall s, ascii_only s = true -> lower s = ascii_lower s.

(** ** Vocabulary of the statements *)

(** The stated nearby test of line grouping, on extents. *)
Definition nearby_line (x_threshold y_threshold font_threshold : Z)
    (last_group : Group) (d : detection) : Prop :=
  let xmax b := px (c2 b) in
  let xmin b := px (c0 b) in
  let ymin b := py (c0 b) in
  let height b := py (c2 b) - py (c0 b) in
  Z.abs (xmax last_group.1 - xmin (det_box d)) < x_threshold /\
  Z.abs (ymin last_group.1 - ymin (det_box d)) < y_threshold /\
  Z.abs (height last_group.1 - height (det_box d)) < font_threshold.

#[global] Instance nearby_line_dec xt yt ft g d : Decision (nearby_line xt yt ft g d).
Proof. unfold nearby_line. apply _. Defined.

(** Merging a detection or a group into a group: the text appended after a
    single space, the box replaced by the merged box. *)
Definition absorb (g : Group) (box : Box) (text : string) : Group :=
  (merge_boxes g.1 box, g.2 +:+ " " +:+ text).

(** Line grouping as stated: walk the sorted detections with the group
    being formed in hand; a nearby detection is merged into it, any other
    closes it and starts the next one. *)
Fixpoint group_lines_from (xt yt ft : Z) (current : Group) (ds : list detection)
    : list Group :=
  match ds with
  | [] => [current]
  | d :: ds' =>
      if decide (nearby_line xt yt ft current d)
      then group_lines_from xt yt ft (absorb current (det_box d) (det_text d)) ds'
      else current :: group_lines_from xt yt ft (first_two d) ds'
  end.

Definition group_lines (ds : list detection) (xt yt ft : Z) : list Group :=
  match sort_by_key sort_key ds with
  | [] => []
  | d :: ds' => group_lines_from xt yt ft (first_two d) ds'
  end.

(** The stated nearby test of paragraph grouping. *)
Definition nearby_paragraph (y_threshold x_threshold : Z) (p g : Group) : Prop :=
  let bottom_edge_y b := py (c3 b) in
  let top_edge_y b := py (c0 b) in
  let left_edge_x b := px (c0 b) in
  Z.abs (bottom_edge_y p.1 - top_edge_y g.1) < y_threshold /\
  Z.abs (left_edge_x p.1 - left_edge_x g.1) < x_threshold.

#[global] Instance nearby_paragraph_dec yt xt p g : Decision (nearby_paragraph yt xt p g).
Proof. unfold nearby_paragraph. apply _. Defined.

(** Paragraph grouping as stated: the first paragraph in list order that is
    nearby absorbs the line group; without one the group is appended. *)
Definition place_line (yt xt : Z) (paragraphs : list Group) (g : Group) : list Group :=
  match list_find (fun p => nearby_paragraph yt xt p g) paragraphs with
  | Some (i, p) => <[ i := absorb p g.1 g.2 ]> paragraphs
  | None => paragraphs ++ [g]
  end.

(** The test the handler applies: the point against the corners 0 and 2
    truncated by [int], bounds included. *)
Definition box_hit (x y : Z) (g : QGroup) : Prop :=
  int (qx (q0 g.1)) <= x <= int (qx (q2 g.1)) /\
  int (qy (q0 g.1)) <= y <= int (qy (q2 g.1)).

#[global] Instance box_hit_dec x y g : Decision (box_hit x y g).
Proof. unfold box_hit. apply _. Defined.

(** The box contains the point, with inclusive bounds on all four sides,
    read on the corners as given. *)
Definition contains_point (x y : Z) (g : QGroup) : Prop :=
  (qx (q0 g.1) <= inject_Z x)%Q /\ (inject_Z x <= qx (q2 g.1))%Q /\
  (qy (q0 g.1) <= inject_Z y)%Q /\ (inject_Z y <= qy (q2 g.1))%Q.

#[global] Instance Qle_decision (a b : Q) : Decision (a <= b)%Q.
Proof. destruct (Qlt_le_dec b a) as [H|H]; [right|left]; [by apply Qlt_not_le|done]. Defined.

#[global] Instance contains_point_dec x y g : Decision (contains_point x y g).
Proof. unfold contains_point. apply _. Defined.

(** No corner coordinate is negative. *)
Definition in_image (g : QGroup) : Prop :=
  (0 <= qx (q0 g.1))%Q /\ (0 <= qx (q2 g.1))%Q /\
  (0 <= qy (q0 g.1))%Q /\ (0 <= qy (q2 g.1))%Q.

(** Splitting a text into words at white space, as [str.split()] does. *)
Definition is_space (c : ascii) : bool :=
  let n := nat_of_ascii c in
  ((n =? 32) || ((9 <=? n) && (n <=? 13)))%nat.

Definition flush (cur : string) : list string :=
  match cur with EmptyString => [] | _ => [cur] end.

Fixpoint words_from (cur : string) (s : string) : list string :=
  match s with
  | EmptyString => flush cur
  | String c s' =>
      if is_space c then flush cur ++ words_from EmptyString s'
      else words_from (cur +:+ String c EmptyString) s'
  end.

Definition words (s : string) : list string := words_from EmptyString s.

(** The texts of a run of detections joined as the loop joins them. *)
Definition join_texts (run : list detection) : string :=
  match run with
  | [] => EmptyString
  | d :: run' => fold_left (fun acc e => acc +:+ (" " +:+ det_text e)) run' (det_text d)
  end.

(** What a group's box can be once all detections satisfy the invariant on
    corners 0/2: the invariant holds, and the box is either a rectangle in
    the fixed winding order or the group is still the detection it was
    started from. *)
Definition held (results : list detection) (g : Group) : Prop :=
  wf02 g.1 /\ (rect g.1 \/ exists d, d ∈ results /\ g = first_two d).

(** The reading of the click handler in which the first group that contains
    the point is the one selected, and none when no group contains it. *)
Definition first_hit_selected (lower : string -> string)
    (groups : list QGroup) (x y : Z) : Prop :=
  forall w,
    clipboard (mouse_callback lower EVENT_LBUTTONDOWN x y 0 (groups, tt) w)
    = match list_find (contains_point x y) groups with
      | Some (_, g) => Some (lower g.2)
      | None => clipboard w
      end.

(** * The same code over a store of objects

    Python passes references.  Here a store is the list of the objects
    allocated so far and a reference is an index into it; a new object gets
    the next index.  The four kinds of object the program handles:
    a box (the list of four points, which no statement of the program
    writes into), a detection tuple [(box, text, confidence)], a group
    [[box, text]] whose two slots are assigned to, and a list of
    references ([results], [grouped_texts], [boxes], [delete]). *)

Module Store.

Definition loc : Type := nat.

Inductive obj : Type :=
| OBox (b : Box)
| ODet (box : loc) (text : string) (conf : Q)
| OGroup (box : loc) (text : string)
| OList (items : list loc).

Abbreviation store := (list obj).

(** A computation runs on a store and ends with a value or an exception;
    in both cases the store keeps the writes made so far.  [Stuck] stands
    for a reference that does not hold an object of the kind the statement
    needs, which the typing hypotheses of the theorems exclude. *)
Definition M (A : Type) : Type := store -> (exn + A) * store.

Definition ret {A : Type} (a : A) : M A := fun s => (inr a, s).

Definition raise {A : Type} (e : exn) : M A := fun s => (inl e, s).

Definition bind {A B : Type} (m : M A) (f : A -> M B) : M B :=
  fun s => match m s with
           | (inr a, s') => f a s'
           | (inl e, s') => (inl e, s')
           end.

Notation "'do' x <- m ; k" := (bind m (fun x => k))
  (at level 10, x name, m at level 100, k at level 200, only parsing).

Definition alloc (o : obj) : M loc := fun s => (inr (length s), s ++ [o]).

Definition set_obj (l : loc) (o : obj) : M unit := fun s => (inr tt, <[ l := o ]> s).

Definition get_box (l : loc) : M Box :=
  fun s => match s !! l with Some (OBox b) => (inr b, s) | _ => (inl Stuck, s) end.

(** [result[:2]] *)
Definition get_det (l : loc) : M (loc * string) :=
  fun s => match s !! l with Some (ODet b t _) => (inr (b, t), s) | _ => (inl Stuck, s) end.

Definition get_group (l : loc) : M (loc * string) :=
  fun s => match s !! l with Some (OGroup b t) => (inr (b, t), s) | _ => (inl Stuck, s) end.

Definition get_list (l : loc) : M (list loc) :=
  fun s => match s !! l with Some (OList items) => (inr items, s) | _ => (inl Stuck, s) end.

(** [g[1] += suffix] and [g[0] = box] on a group. *)
Definition add_text (g : loc) (suffix : string) : M unit :=
  do bt <- get_group g; set_obj g (OGroup bt.1 (bt.2 +:+ suffix)).

Definition set_box (g : loc) (box : loc) : M unit :=
  do bt <- get_group g; set_obj g (OGroup box bt.2).

(** [l.append(x)] *)
Definition append (l : loc) (x : loc) : M unit :=
  do items <- get_list l; set_obj l (OList (items ++ [x])).

Fixpoint for_each {A : Type} (xs : list A) (body : A -> M unit) : M unit :=
  match xs with
  | [] => ret tt
  | x :: xs' => do _ <- body x; for_each xs' body
  end.

Fixpoint map_m {A B : Type} (f : A -> M B) (xs : list A) : M (list B) :=
  match xs with
  | [] => ret []
  | x :: xs' => do y <- f x; do ys <- map_m f xs'; ret (y :: ys)
  end.

(** [merge_boxes] builds a new list. *)
Definition merge_boxes (box1 box2 : loc) : M loc :=
  do b1 <- get_box box1;
  do b2 <- get_box box2;
  alloc (OBox (merge_boxes b1 b2)).

Definition is_nearby (box1 box2 : loc) (x_threshold y_threshold font_threshold : Z) : M bool :=
  do b1 <- get_box box1;
  do b2 <- get_box box2;
  ret (is_nearby b1 b2 x_threshold y_threshold font_threshold).

Definition is_nearby_parag (box1 box2 : loc) (parag_y_threshold parag_x_threshold : Z) : M bool :=
  do b1 <- get_box box1;
  do b2 <- get_box box2;
  ret (is_nearby_parag b1 b2 parag_y_threshold parag_x_threshold).

(** [lambda x: (x[0][0][1], x[0][0][0])] *)
Definition key_of (x : loc) : M (Z * Z) :=
  do bt <- get_det x;
  do b <- get_box bt.1;
  ret (py (c0 b), px (c0 b)).

(** [results.sort(key=...)]: the keys are computed first, then the list
    object is rewritten in key order. *)
Definition list_sort (results : loc) : M unit :=
  do items <- get_list results;
  do keys <- map_m key_of items;
  set_obj results (OList (sort_by_key fst (zip keys items)).*2).

(** The body of [for result in results]. *)
Definition line_body (x_threshold y_threshold font_threshold : Z)
    (grouped_texts : loc) (result : loc) : M unit :=
  do bt <- get_det result;
  let '(box, text) := bt in
  do gs <- get_list grouped_texts;
  match last gs with
  | Some g =>
      do g0 <- get_group g;
      do near <- is_nearby g0.1 box x_threshold y_threshold font_threshold;
      if near then
        do _ <- add_text g (" " +:+ text);
        do g1 <- get_group g;
        do merged <- merge_boxes g1.1 box;
        set_box g merged
      else
        do new <- alloc (OGroup box text);
        append grouped_texts new
  | None =>
      do new <- alloc (OGroup box text);
      append grouped_texts new
  end.

Definition group_text_boxes (results : loc)
    (x_threshold y_threshold font_threshold : Z) : M loc :=
  do grouped_texts <- alloc (OList []);
  do _ <- list_sort results;
  do items <- get_list results;
  do _ <- for_each items (line_body x_threshold y_threshold font_threshold grouped_texts);
  ret grouped_texts.

(** The inner [for i, (box2, text2) in enumerate(boxes)]; the result is the
    flag [merged]. *)
Fixpoint scan_boxes (parag_y_threshold parag_x_threshold : Z) (delete : loc)
    (boxes : list loc) (box1 : loc) (text1 : string) : M bool :=
  match boxes with
  | [] => ret false
  | p :: rest =>
      do bt2 <- get_group p;
      let '(box2, text2) := bt2 in
      do near <- is_nearby_parag box2 box1 parag_y_threshold parag_x_threshold;
      if near then
        do _ <- add_text p (" " +:+ text1);
        do merged <- merge_boxes box2 box1;
        do _ <- set_box p merged;
        do pair <- alloc (OGroup box1 text1);
        do _ <- append delete pair;
        ret true
      else scan_boxes parag_y_threshold parag_x_threshold delete rest box1 text1
  end.

(** The body of [for box1, text1 in grouped_texts[1:]]. *)
Definition parag_body (parag_y_threshold parag_x_threshold : Z)
    (boxes delete : loc) (g : loc) : M unit :=
  do bt1 <- get_group g;
  let '(box1, text1) := bt1 in
  do bs <- get_list boxes;
  do merged <- scan_boxes parag_y_threshold parag_x_threshold delete bs box1 text1;
  if merged then ret tt
  else
    do new <- alloc (OGroup box1 text1);
    append boxes new.

Definition check_paragraph (grouped_texts : loc)
    (parag_y_threshold parag_x_threshold : Z) : M loc :=
  do gs <- get_list grouped_texts;
  match gs with
  | [] => raise IndexError
  | first :: rest =>
      do boxes <- alloc (OList [first]);
      do delete <- alloc (OList []);
      do _ <- for_each rest (parag_body parag_y_threshold parag_x_threshold boxes delete);
      ret boxes
  end.

(** [boxes = check_paragraph(group_text_boxes(results))] *)
Definition pipeline (results : loc) : M loc :=
  do grouped_texts <-
    group_text_boxes results x_threshold_default y_threshold_default font_threshold_default;
  check_paragraph grouped_texts parag_y_threshold_default parag_x_threshold_default.

(** *** Reading values out of a store *)

Definition val_box (s : store) (l : loc) : option Box :=
  match s !! l with Some (OBox b) => Some b | _ => None end.

Definition val_det (s : store) (l : loc) : option detection :=
  match s !! l with
  | Some (ODet bl t c) => b ← val_box s bl; Some (mkDet b t c)
  | _ => None
  end.

Definition val_group (s : store) (l : loc) : option Group :=
  match s !! l with
  | Some (OGroup bl t) => b ← val_box s bl; Some (b, t)
  | _ => None
  end.

Definition val_dets (s : store) (l : loc) : option (list detection) :=
  match s !! l with
  | Some (OList items) => mapM (val_det s) items
  | _ => None
  end.

Definition val_groups (s : store) (l : loc) : option (list Group) :=
  match s !! l with
  | Some (OList items) => mapM (val_group s) items
  | _ => None
  end.

(** What a caller sees of a finished run: the exception, or the groups the
    returned list holds in the final store. *)
Definition observe (r : (exn + loc) * store) : exn + list Group :=
  match r.1 with
  | inl e => inl e
  | inr l => match val_groups r.2 l with Some gs => inr gs | None => inl Stuck end
  end.

End Store.

(** ** Vocabulary of the statements about stores *)

(** [s'] holds every object of [s] unchanged, except possibly those at the
    references in [ws]; it may hold more objects. *)
Definition differs_at (ws : list Store.loc) (s s' : Store.store) : Prop :=
  forall k o, k ∉ ws -> s !! k = Some o -> s' !! k = Some o.

Definition not_a_box (s : Store.store) (w : Store.loc) : Prop :=
  forall b, s !! w <> Some (Store.OBox b).

(** The state of the loop of [group_text_boxes]: the objects of [base]
    (the store at the start of the loop, without the new list) are still
    there, [grouped_texts] sits right after them and holds distinct
    references to groups allocated later, whose values are [gs]. *)
Definition lines_inv (base s : Store.store) (gl : list Store.loc) (gs : list Group) : Prop :=
  (forall k o, base !! k = Some o -> s !! k = Some o) /\
  s !! length base = Some (Store.OList gl) /\
  Forall2 (fun l g => (length base < l)%nat /\ Store.val_group s l = Some g) gl gs /\
  NoDup gl.

(** The state of the loop of [check_paragraph] started on the store [s0]
    with [first = grouped_texts[0]]: of the objects of [s0] only the one at
    [first] may have changed; [boxes] and [delete] sit right after them;
    [boxes] holds [first] followed by distinct references to groups
    allocated later; the values of the groups in [boxes] are [ps]. *)
Definition parag_inv (s0 : Store.store) (first : Store.loc) (s : Store.store)
    (bl : list Store.loc) (ps : list Group) : Prop :=
  (first < length s0)%nat /\
  differs_at [first] s0 s /\
  s !! length s0 = Some (Store.OList (first :: bl)) /\
  (exists dl, s !! S (length s0) = Some (Store.OList dl)) /\
  Forall2 (fun l g => Store.val_group s l = Some g) (first :: bl) ps /\
  Forall (fun l => (S (length s0) < l)%nat) bl /\
  NoDup bl.

(** The references a sorted [results] holds, given the values [ds] of the
    detections behind [items]. *)
Definition sorted_refs (ds : list detection) (items : list Store.loc) : list Store.loc :=
  (sort_by_key fst (zip (sort_key <$> ds) items)).*2.

(** A store for the examples: three detections, "latte" to the right of
    "cafe" on one line and "milk" right below, listed out of order. *)
Definition example_store : Store.store :=
  [ Store.OBox (mkBox (45, 0) (80, 0) (80, 20) (45, 20)); Store.ODet 0%nat "latte" 1;
    Store.OBox (mkBox (0, 0) (40, 0) (40, 20) (0, 20)); Store.ODet 2%nat "cafe" 1;
    Store.OBox (mkBox (2, 23) (40, 23) (40, 43) (2, 43)); Store.ODet 4%nat "milk" 1;
    Store.OList [1; 3; 5]%nat ].

Definition example_detections : list detection :=
  [ mkDet (mkBox (45, 0) (80, 0) (80, 20) (45, 20)) "latte" 1;
    mkDet (mkBox (0, 0) (40, 0) (40, 20) (0, 20)) "cafe" 1;
    mkDet (mkBox (2, 23) (40, 23) (40, 43) (2, 43)) "milk" 1 ].

(** ** Further vocabulary *)

(** The extent of [a] (corners 0/2) lies within the extent of [b]. *)
Definition ext_le (a b : Box) : Prop :=
  px (c0 b) <= px (c0 a) /\ px (c2 a) <= px (c2 b) /\
  py (c0 b) <= py (c0 a) /\ py (c2 a) <= py (c2 b).

(** Some group of the list has a box whose extent includes that of [b]. *)
Definition covers (gs : list Group) (b : Box) : Prop :=
  exists g, g ∈ gs /\ ext_le b g.1.

(** Moving a box, a detection or a group by [(dx, dy)]. *)
Definition shift_point (dx dy : Z) (p : point) : point := (px p + dx, py p + dy).

Definition shift_box (dx dy : Z) (b : Box) : Box :=
  mkBox (shift_point dx dy (c0 b)) (shift_point dx dy (c1 b))
        (shift_point dx dy (c2 b)) (shift_point dx dy (c3 b)).

Definition shift_det (dx dy : Z) (d : detection) : detection :=
  mkDet (shift_box dx dy (det_box d)) (det_text d) (det_conf d).

Definition shift_group (dx dy : Z) (g : Group) : Group := (shift_box dx dy g.1, g.2).

Definition shift_result (dx dy : Z) (r : exn + list Group) : exn + list Group :=
  match r with
  | inl e => inl e
  | inr gs => inr (shift_group dx dy <$> gs)
  end.

(** The group that a run of detections grows into when each one after the
    first is merged into it in turn. *)
Definition group_of_run (run : list detection) (g : Group) : Prop :=
  match run with
  | [] => False
  | d :: rest =>
      g = fold_left (fun acc e => absorb acc (det_box e) (det_text e)) rest (first_two d)
  end.

(** Every detection of the run has its top edge at or below that of the
    first one, by less than [y_threshold]. *)
Definition in_band (y_threshold : Z) (run : list detection) : Prop :=
  match run with
  | [] => True
  | d :: rest =>
      Forall (fun e => py (c0 (det_box d)) <= py (c0 (det_box e))
                       < py (c0 (det_box d)) + y_threshold) rest
  end.

(** ** The event loop of [main] *)

(** The test [cv2.waitKey(1) & 0xFF == ord('q')] on the value [waitKey]
    returned ([&] binds tighter than [==]). *)
Definition quit_requested (key : Z) : bool :=
  Z.land key 255 =? Z.of_nat (nat_of_ascii "q"%char).

(** [while True: if ...: break] over the successive values of
    [cv2.waitKey(1)]: the number of calls made when the loop is left, or
    [None] while it is still running at the end of the values given. *)
Fixpoint event_loop (keys : list Z) : option nat :=
  match keys with
  | [] => None
  | key :: rest => if quit_requested key then Some 1%nat else S <$> event_loop rest
  end.

(** ** Basic facts about [merge_boxes] *)

Ltac unfold_geom :=
  unfold own_extent, contains, inside, rect, winding, wf02, merge_boxes, px, py in *;
  simpl in *.

Lemma merge_boxes_c0 a b :
  c0 (merge_boxes a b) = (Z.min (px (c0 a)) (px (c0 b)), Z.min (py (c0 a)) (py (c0 b))).
Proof. reflexivity. Qed.

Lemma merge_boxes_c2 a b :
  c2 (merge_boxes a b) = (Z.max (px (c2 a)) (px (c2 b)), Z.max (py (c2 a)) (py (c2 b))).
Proof. reflexivity. Qed.

Lemma merge_boxes_winding a b : winding (merge_boxes a b).
Proof. split; reflexivity. Qed.

Lemma merge_boxes_wf02 a b : wf02 a -> wf02 b -> wf02 (merge_boxes a b).
Proof. unfold_geom. lia. Qed.

Lemma merge_boxes_rect a b : wf02 a -> wf02 b -> rect (merge_boxes a b).
Proof. intros; split; auto using merge_boxes_wf02, merge_boxes_winding. Qed.

Lemma rect_wf02 b : rect b -> wf02 b.
Proof. intros [H _]; exact H. Qed.

Lemma rect_own_extent b : rect b -> own_extent b.
Proof.
  destruct b as [[x0 y0] [x1 y1] [x2 y2] [x3 y3]].
  unfold_geom. intros [[? ?] [E1 E3]]. inversion E1; inversion E3; subst. lia.
Qed.

Lemma own_extent_wf02 b : own_extent b -> wf02 b.
Proof. unfold_geom. lia. Qed.

Lemma merge_boxes_comm a b : merge_boxes a b = merge_boxes b a.
Proof.
  unfold merge_boxes; simpl.
  rewrite (Z.min_comm (px (c0 a))), (Z.min_comm (py (c0 a))),
          (Z.max_comm (px (c2 a))), (Z.max_comm (py (c2 a))).
  reflexivity.
Qed.

Lemma merge_boxes_assoc a b c :
  merge_boxes (merge_boxes a b) c = merge_boxes a (merge_boxes b c).
Proof.
  unfold merge_boxes, px, py; simpl.
  rewrite !Z.min_assoc, !Z.max_assoc. reflexivity.
Qed.

Lemma merge_boxes_idem a b : merge_boxes (merge_boxes a b) b = merge_boxes a b.
Proof.
  rewrite merge_boxes_assoc. unfold merge_boxes, px, py; simpl.
  rewrite !Z.min_id, !Z.max_id. reflexivity.
Qed.

(** The condition under which a box is covered by its own merge. *)
Lemma merge_boxes_self_contains a : contains (merge_boxes a a) a <-> own_extent a.
Proof.
  unfold own_extent, contains, inside. rewrite merge_boxes_c0, merge_boxes_c2.
  unfold px, py; simpl. by rewrite !Z.min_id, !Z.max_id.
Qed.

(** ** Sorting by key *)

Lemma tuple_ltb_false a b : tuple_ltb b a = false <-> tuple_le a b.
Proof.
  destruct a as [a1 a2], b as [b1 b2]. unfold tuple_ltb, tuple_le; simpl.
  rewrite orb_false_iff, andb_false_iff, !Z.ltb_ge, Z.eqb_neq. lia.
Qed.

Lemma tuple_ltb_true a b : tuple_ltb a b = true -> tuple_le a b.
Proof.
  destruct a as [a1 a2], b as [b1 b2]. unfold tuple_ltb, tuple_le; simpl.
  rewrite orb_true_iff, andb_true_iff, !Z.ltb_lt, Z.eqb_eq. lia.
Qed.

Lemma tuple_le_trans a b c : tuple_le a b -> tuple_le b c -> tuple_le a c.
Proof. unfold tuple_le. lia. Qed.

Section sorting.
Context {A : Type} (key : A -> Z * Z).

Lemma key_le_trans d e f : key_le key d e -> key_le key e f -> key_le key d f.
Proof. apply tuple_le_trans. Qed.

Lemma insert_by_key_perm x l : Permutation (insert_by_key key x l) (x :: l).
Proof.
  induction l as [|y l IH]; simpl; [reflexivity|].
  destruct (tuple_ltb (key y) (key x)); [|reflexivity].
  rewrite IH. apply perm_swap.
Qed.

Lemma sort_by_key_perm l : Permutation (sort_by_key key l) l.
Proof.
  induction l as [|x l IH]; simpl; [reflexivity|].
  rewrite insert_by_key_perm. by constructor.
Qed.

Lemma insert_by_key_sorted x l :
  StronglySorted (key_le key) l -> StronglySorted (key_le key) (insert_by_key key x l).
Proof.
  induction 1 as [|y l Hs IH Hy]; simpl; [repeat constructor|].
  destruct (tuple_ltb (key y) (key x)) eqn:E.
  - constructor; [exact IH|].
    rewrite (insert_by_key_perm x l). constructor; [|exact Hy].
    by apply tuple_ltb_true.
  - apply tuple_ltb_false in E.
    constructor; [by constructor|]. constructor; [exact E|].
    eapply Forall_impl; [exact Hy|]. intros z Hz. by eapply key_le_trans.
Qed.

Lemma sort_by_key_sorted l : StronglySorted (key_le key) (sort_by_key key l).
Proof.
  induction l as [|x l IH]; simpl; [constructor|]. by apply insert_by_key_sorted.
Qed.

(** A list already in key order is left as it is. *)
Lemma sort_by_key_fixed l : StronglySorted (key_le key) l -> sort_by_key key l = l.
Proof.
  induction 1 as [|x l Hs IH Hx]; simpl; [reflexivity|].
  rewrite IH. destruct l as [|y l']; [reflexivity|]. simpl.
  apply Forall_cons in Hx as [Hxy _].
  apply tuple_ltb_false in Hxy. by rewrite Hxy.
Qed.

Lemma sort_by_key_idem l : sort_by_key key (sort_by_key key l) = sort_by_key key l.
Proof. apply sort_by_key_fixed, sort_by_key_sorted. Qed.

(** Stability: elements with equal keys keep their relative order. *)
Lemma insert_by_key_stable k x l :
  filter (fun d => key d = k) (insert_by_key key x l)
  = filter (fun d => key d = k) (x :: l).
Proof.
  induction l as [|y l IH]; simpl; [reflexivity|].
  destruct (tuple_ltb (key y) (key x)) eqn:E; [|reflexivity].
  rewrite filter_cons, IH, !filter_cons.
  destruct (decide (key y = k)) as [Hy|Hy]; [|reflexivity].
  destruct (decide (key x = k)) as [Hx|Hx]; [|reflexivity].
  exfalso. rewrite Hy, Hx in E. clear -E.
  destruct k as [k1 k2]. unfold tuple_ltb in E; simpl in E.
  rewrite orb_true_iff, andb_true_iff, !Z.ltb_lt in E. lia.
Qed.

Lemma sort_by_key_stable k l :
  filter (fun d => key d = k) (sort_by_key key l)
  = filter (fun d => key d = k) l.
Proof.
  induction l as [|x l IH]; simpl; [reflexivity|].
  rewrite insert_by_key_stable, !filter_cons, IH. reflexivity.
Qed.

End sorting.

(** ** Line grouping *)

Lemma is_nearby_spec xt yt ft (g : Group) (d : detection) :
  is_nearby g.1 (det_box d) xt yt ft = bool_decide (nearby_line xt yt ft g d).
Proof.
  unfold is_nearby, nearby_line.
  destruct (bool_decide_reflect
    (Z.abs (px (c2 g.1) - px (c0 (det_box d))) < xt
     /\ Z.abs (py (c0 g.1) - py (c0 (det_box d))) < yt
     /\ Z.abs (py (c2 g.1) - py (c0 g.1) - (py (c2 (det_box d)) - py (c0 (det_box d)))) < ft))
    as [H|H].
  - destruct H as (H1 & H2 & H3).
    apply Z.ltb_lt in H1, H2, H3. by rewrite H1, H2, H3.
  - apply not_true_is_false. intros E.
    apply andb_true_iff in E as [E E3]. apply andb_true_iff in E as [E1 E2].
    apply Z.ltb_lt in E1, E2, E3. by apply H.
Qed.

Lemma line_step_nil xt yt ft d : line_step xt yt ft [] d = [first_two d].
Proof. reflexivity. Qed.

Lemma line_step_snoc xt yt ft gs g d :
  line_step xt yt ft (gs ++ [g]) d =
  if decide (nearby_line xt yt ft g d)
  then gs ++ [absorb g (det_box d) (det_text d)]
  else gs ++ [g; first_two d].
Proof.
  unfold line_step, first_two. rewrite last_snoc. destruct g as [gbox gtext].
  change gbox with ((gbox, gtext).1) at 1. rewrite is_nearby_spec.
  destruct (decide (nearby_line xt yt ft (gbox, gtext) d)) as [H|H].
  - rewrite bool_decide_eq_true_2 by done.
    rewrite length_app, Nat.add_1_r. simpl.
    replace (length gs) with (length gs + 0)%nat by lia.
    rewrite insert_app_r. reflexivity.
  - rewrite bool_decide_eq_false_2 by done. by rewrite <- app_assoc.
Qed.

Lemma fold_line_step_from xt yt ft ds : forall gs current,
  fold_left (line_step xt yt ft) ds (gs ++ [current])
  = gs ++ group_lines_from xt yt ft current ds.
Proof.
  induction ds as [|d ds IH]; intros gs current; simpl; [reflexivity|].
  rewrite line_step_snoc.
  destruct (decide (nearby_line xt yt ft current d)).
  - apply IH.
  - change (gs ++ [current; first_two d]) with (gs ++ [current] ++ [first_two d]).
    rewrite app_assoc, IH, <- app_assoc. reflexivity.
Qed.

Lemma group_text_boxes_group_lines results xt yt ft :
  group_text_boxes results xt yt ft = group_lines results xt yt ft.
Proof.
  unfold group_text_boxes, group_lines.
  destruct (sort_by_key sort_key results) as [|d ds]; [reflexivity|].
  simpl. rewrite line_step_nil.
  apply (fold_line_step_from xt yt ft ds [] (first_two d)).
Qed.

(** ** Paragraph grouping *)

Lemma is_nearby_parag_spec yt xt (p g : Group) :
  is_nearby_parag p.1 g.1 yt xt = bool_decide (nearby_paragraph yt xt p g).
Proof.
  unfold is_nearby_parag, nearby_paragraph.
  destruct (bool_decide_reflect
    (Z.abs (py (c3 p.1) - py (c0 g.1)) < yt /\ Z.abs (px (c0 p.1) - px (c0 g.1)) < xt))
    as [[H1 H2]|H].
  - apply Z.ltb_lt in H1, H2. by rewrite H1, H2.
  - apply not_true_is_false. intros E. apply andb_true_iff in E as [E1 E2].
    apply Z.ltb_lt in E1, E2. by apply H.
Qed.

Lemma scan_boxes_first yt xt pre p post box1 text1 :
  Forall (fun q => ~ nearby_paragraph yt xt q (box1, text1)) pre ->
  nearby_paragraph yt xt p (box1, text1) ->
  scan_boxes yt xt (pre ++ p :: post) box1 text1
  = Some (pre ++ absorb p box1 text1 :: post).
Proof.
  intros Hpre Hp. induction Hpre as [|[box2 text2] pre Hq _ IH]; simpl.
  - destruct p as [box2 text2].
    change (is_nearby_parag box2 box1 yt xt)
      with (is_nearby_parag (box2, text2).1 (box1, text1).1 yt xt).
    rewrite is_nearby_parag_spec, bool_decide_eq_true_2 by done. reflexivity.
  - change (is_nearby_parag box2 box1 yt xt)
      with (is_nearby_parag (box2, text2).1 (box1, text1).1 yt xt).
    rewrite is_nearby_parag_spec, bool_decide_eq_false_2 by done.
    rewrite IH. reflexivity.
Qed.

Lemma scan_boxes_none yt xt boxes box1 text1 :
  Forall (fun q => ~ nearby_paragraph yt xt q (box1, text1)) boxes ->
  scan_boxes yt xt boxes box1 text1 = None.
Proof.
  induction 1 as [|[box2 text2] boxes Hq _ IH]; simpl; [reflexivity|].
  change (is_nearby_parag box2 box1 yt xt)
    with (is_nearby_parag (box2, text2).1 (box1, text1).1 yt xt).
  rewrite is_nearby_parag_spec, bool_decide_eq_false_2 by done.
  by rewrite IH.
Qed.

(** Every list of paragraphs splits at its first nearby member, if any. *)
Lemma first_nearby_split yt xt (boxes : list Group) g :
  Forall (fun q => ~ nearby_paragraph yt xt q g) boxes \/
  exists pre p post, boxes = pre ++ p :: post /\
    Forall (fun q => ~ nearby_paragraph yt xt q g) pre /\ nearby_paragraph yt xt p g.
Proof.
  induction boxes as [|q boxes IH]; [by left|].
  destruct (decide (nearby_paragraph yt xt q g)) as [Hq|Hq].
  - right. exists [], q, boxes. by split_and!.
  - destruct IH as [IH|(pre & p & post & -> & Hpre & Hp)].
    + left. by constructor.
    + right. exists (q :: pre), p, post. split_and!; [done| |done]. by constructor.
Qed.

Lemma list_find_first yt xt pre p post g :
  Forall (fun q => ~ nearby_paragraph yt xt q g) pre ->
  nearby_paragraph yt xt p g ->
  list_find (fun q => nearby_paragraph yt xt q g) (pre ++ p :: post)
  = Some (length pre, p).
Proof.
  intros Hpre Hp. apply list_find_Some. split_and!.
  - by rewrite list_lookup_middle.
  - done.
  - intros j y Hj Hlt. rewrite lookup_app_l in Hj by done.
    rewrite Forall_lookup in Hpre. by eapply Hpre.
Qed.

Lemma list_find_none yt xt (boxes : list Group) g :
  Forall (fun q => ~ nearby_paragraph yt xt q g) boxes ->
  list_find (fun q => nearby_paragraph yt xt q g) boxes = None.
Proof. intros H. by apply list_find_None. Qed.

Lemma place_line_first yt xt pre p post g :
  Forall (fun q => ~ nearby_paragraph yt xt q g) pre ->
  nearby_paragraph yt xt p g ->
  place_line yt xt (pre ++ p :: post) g = pre ++ absorb p g.1 g.2 :: post.
Proof.
  intros Hpre Hp. unfold place_line. rewrite list_find_first by done.
  replace (length pre) with (length pre + 0)%nat by lia.
  by rewrite insert_app_r.
Qed.

Lemma place_line_none yt xt boxes g :
  Forall (fun q => ~ nearby_paragraph yt xt q g) boxes ->
  place_line yt xt boxes g = boxes ++ [g].
Proof. intros H. unfold place_line. by rewrite list_find_none. Qed.

Lemma parag_step_place_line yt xt boxes g :
  parag_step yt xt boxes g = place_line yt xt boxes g.
Proof.
  destruct g as [box1 text1]. unfold parag_step.
  destruct (first_nearby_split yt xt boxes (box1, text1))
    as [H|(pre & p & post & -> & Hpre & Hp)].
  - by rewrite scan_boxes_none, place_line_none.
  - by rewrite scan_boxes_first, place_line_first.
Qed.

Lemma fold_parag_step_place_line yt xt rest : forall boxes,
  fold_left (parag_step yt xt) rest boxes = fold_left (place_line yt xt) rest boxes.
Proof.
  induction rest as [|g rest IH]; intros boxes; simpl; [reflexivity|].
  by rewrite parag_step_place_line, IH.
Qed.

(** ** Click handler *)

Lemma click_loop_hits lower results x y : forall w,
  click_loop lower results x y w =
  let hits := filter (box_hit x y) results in
  mkWorld (copied w ++ ((fun g => lower g.2) <$> hits))
          (printed w ++ ((fun g => "Copied text: " +:+ lower g.2) <$> hits)).
Proof.
  induction results as [|[box text] results IH]; intros [cp pr]; simpl.
  - by rewrite !app_nil_r.
  - rewrite filter_cons.
    destruct (decide (box_hit x y (box, text))) as [H|H].
    + destruct H as [[H1 H2] [H3 H4]]; simpl in *.
      apply Z.leb_le in H1, H2, H3, H4. rewrite H1, H2, H3, H4. simpl.
      rewrite IH. simpl. by rewrite <- !app_assoc.
    + destruct ((int (qx (q0 box)) <=? x) && (x <=? int (qx (q2 box)))
                && ((int (qy (q0 box)) <=? y) && (y <=? int (qy (q2 box))))) eqn:E.
      * exfalso. apply H.
        apply andb_true_iff in E as [E1 E2].
        apply andb_true_iff in E1 as [E1 E1'], E2 as [E2 E2'].
        apply Z.leb_le in E1, E1', E2, E2'. by split_and!.
      * apply IH.
Qed.

(** *** Truncation *)

Lemma int_inject_Z z : int (inject_Z z) = z.
Proof. unfold int, inject_Z; simpl. apply Z.quot_1_r. Qed.

Lemma int_nonneg_floor q : (0 <= q)%Q -> int q = Qnum q / Z.pos (Qden q).
Proof.
  destruct q as [n d]. unfold Qle, int; simpl. intros H.
  apply Z.quot_div_nonneg; lia.
Qed.

(** For a coordinate that is not negative, [int] rounds down: an integer
    is at most [int q] when it is at most [q], and at least [int q] when
    it is more than [q - 1]. *)
Lemma le_int_nonneg q x : (0 <= q)%Q -> x <= int q <-> (inject_Z x <= q)%Q.
Proof.
  intros Hq. rewrite (int_nonneg_floor q Hq).
  destruct q as [n d]. unfold Qle; simpl.
  pose proof (Z.div_mod n (Z.pos d) ltac:(lia)) as Hdm.
  pose proof (Z.mod_pos_bound n (Z.pos d) ltac:(lia)) as Hmod.
  split; intros H; nia.
Qed.

Lemma int_le_nonneg q x : (0 <= q)%Q -> int q <= x <-> (q < inject_Z (x + 1))%Q.
Proof.
  intros Hq. rewrite (int_nonneg_floor q Hq).
  destruct q as [n d]. unfold Qlt; simpl.
  pose proof (Z.div_mod n (Z.pos d) ltac:(lia)) as Hdm.
  pose proof (Z.mod_pos_bound n (Z.pos d) ltac:(lia)) as Hmod.
  split; intros H; nia.
Qed.

Lemma box_hit_number_group x y (g : Group) :
  box_hit x y (number_group g) <-> inside g.1 (x, y).
Proof.
  unfold box_hit, inside, number_group, number_box, number_point, qx, qy; simpl.
  by rewrite !int_inject_Z.
Qed.

Lemma box_hit_in_image x y (g : QGroup) :
  in_image g ->
  box_hit x y g <->
  (qx (q0 g.1) < inject_Z (x + 1))%Q /\ (inject_Z x <= qx (q2 g.1))%Q /\
  (qy (q0 g.1) < inject_Z (y + 1))%Q /\ (inject_Z y <= qy (q2 g.1))%Q.
Proof.
  intros (H1 & H2 & H3 & H4). unfold box_hit.
  rewrite (int_le_nonneg _ x H1), (le_int_nonneg _ x H2),
          (int_le_nonneg _ y H3), (le_int_nonneg _ y H4). tauto.
Qed.

Lemma contains_point_box_hit x y (g : QGroup) :
  in_image g -> contains_point x y g -> box_hit x y g.
Proof.
  intros Him (H1 & H2 & H3 & H4). apply (box_hit_in_image x y g Him).
  split_and!; try done.
  - eapply Qle_lt_trans; [exact H1|]. rewrite <- Zlt_Qlt. lia.
  - eapply Qle_lt_trans; [exact H3|]. rewrite <- Zlt_Qlt. lia.
Qed.

(** ** Words *)

Lemma words_from_space cur a b :
  words_from cur (a +:+ (" " +:+ b)) = words_from cur a ++ words b.
Proof.
  revert cur. induction a as [|c a IH]; intros cur; simpl.
  - reflexivity.
  - destruct (is_space c).
    + by rewrite IH, app_assoc.
    + apply IH.
Qed.

Lemma words_space a b : words (a +:+ (" " +:+ b)) = words a ++ words b.
Proof. apply words_from_space. Qed.

Lemma join_texts_snoc run d :
  run <> [] -> join_texts (run ++ [d]) = join_texts run +:+ (" " +:+ det_text d).
Proof.
  destruct run as [|e run]; [done|]. intros _. simpl. by rewrite fold_left_app.
Qed.

Lemma words_join_texts run :
  words (join_texts run) = flat_map (fun d => words (det_text d)) run.
Proof.
  induction run as [|d run IH] using rev_ind; [reflexivity|].
  destruct run as [|e run].
  - simpl. by rewrite app_nil_r.
  - rewrite join_texts_snoc by done. rewrite words_space, IH.
    rewrite flat_map_app. simpl. by rewrite app_nil_r.
Qed.

(** The groups of a line are the joined runs of the detections walked. *)
Lemma group_lines_from_runs xt yt ft ds : forall run current,
  run <> [] -> current.2 = join_texts run ->
  exists runs, concat runs = run ++ ds /\ Forall (fun r => r <> []) runs /\
    (group_lines_from xt yt ft current ds).*2 = join_texts <$> runs.
Proof.
  induction ds as [|d ds IH]; intros run current Hne Htext; simpl.
  - exists [run]. simpl. rewrite !app_nil_r. repeat split; [|by rewrite Htext].
    by repeat constructor.
  - destruct (decide (nearby_line xt yt ft current d)).
    + destruct (IH (run ++ [d]) (absorb current (det_box d) (det_text d)))
        as (runs & Hc & Hf & Ht).
      * by destruct run.
      * simpl. by rewrite join_texts_snoc, Htext.
      * exists runs. rewrite Hc, <- app_assoc. by repeat split.
    + destruct (IH [d] (first_two d)) as (runs & Hc & Hf & Ht); [done|done|].
      exists (run :: runs). rewrite !fmap_cons, Ht, Htext. simpl. rewrite Hc.
      split_and!; [done| |done]. by constructor.
Qed.

Lemma group_text_boxes_runs results xt yt ft :
  exists runs, concat runs = sort_by_key sort_key results /\ Forall (fun r => r <> []) runs /\
    (group_text_boxes results xt yt ft).*2 = join_texts <$> runs.
Proof.
  rewrite group_text_boxes_group_lines. unfold group_lines.
  destruct (sort_by_key sort_key results) as [|d ds].
  - exists []. by repeat split.
  - apply (group_lines_from_runs xt yt ft ds [d] (first_two d)); done.
Qed.

Lemma flat_map_words_runs runs :
  flat_map words (join_texts <$> runs)
  = flat_map (fun d => words (det_text d)) (concat runs).
Proof.
  induction runs as [|r runs IH]; [reflexivity|].
  rewrite fmap_cons. simpl. by rewrite flat_map_app, IH, words_join_texts.
Qed.

Lemma group_text_boxes_words results xt yt ft :
  flat_map words (group_text_boxes results xt yt ft).*2
  = flat_map (fun d => words (det_text d)) (sort_by_key sort_key results).
Proof.
  destruct (group_text_boxes_runs results xt yt ft) as (runs & Hc & _ & Ht).
  by rewrite Ht, flat_map_words_runs, Hc.
Qed.

(** ** Boxes held by groups *)

Lemma held_first_two results d :
  d ∈ results -> wf02 (det_box d) -> held results (first_two d).
Proof. intros Hd Hwf. split; [exact Hwf|]. right. by exists d. Qed.

Lemma held_absorb results g box text :
  held results g -> wf02 box -> held results (absorb g box text).
Proof.
  intros [Hg _] Hb. split; simpl.
  - by apply merge_boxes_wf02.
  - left. by apply merge_boxes_rect.
Qed.

Lemma line_step_held results xt yt ft gs d :
  Forall (held results) gs -> d ∈ results -> wf02 (det_box d) ->
  Forall (held results) (line_step xt yt ft gs d).
Proof.
  intros Hgs Hd Hwf. destruct gs as [|g gs _] using rev_ind.
  - rewrite line_step_nil. constructor; [|constructor]. by apply held_first_two.
  - rewrite line_step_snoc. apply Forall_app in Hgs as [Hgs Hg].
    rewrite Forall_singleton in Hg.
    destruct (decide (nearby_line xt yt ft g d)); apply Forall_app; split; try done.
    + apply Forall_singleton. by apply held_absorb.
    + constructor; [done|]. apply Forall_singleton. by apply held_first_two.
Qed.

Lemma fold_line_step_held results xt yt ft ds : forall gs,
  Forall (fun d => d ∈ results /\ wf02 (det_box d)) ds ->
  Forall (held results) gs ->
  Forall (held results) (fold_left (line_step xt yt ft) ds gs).
Proof.
  induction ds as [|d ds IH]; intros gs Hds Hgs; simpl; [done|].
  apply Forall_cons in Hds as [[Hd Hwf] Hds].
  apply IH; [done|]. by apply line_step_held.
Qed.

Lemma group_text_boxes_held results xt yt ft :
  Forall (fun d => wf02 (det_box d)) results ->
  Forall (held results) (group_text_boxes results xt yt ft).
Proof.
  intros Hwf. unfold group_text_boxes. apply fold_line_step_held; [|constructor].
  apply Forall_forall. intros d Hd.
  assert (d ∈ results) as Hin by (by rewrite <- (sort_by_key_perm sort_key results)).
  split; [done|]. rewrite Forall_forall in Hwf. by apply Hwf.
Qed.

Lemma place_line_held results yt xt boxes g :
  Forall (held results) boxes -> held results g ->
  Forall (held results) (place_line yt xt boxes g).
Proof.
  intros Hb Hg.
  destruct (first_nearby_split yt xt boxes g) as [H|(pre & p & post & -> & Hpre & Hp)].
  - rewrite place_line_none by done. apply Forall_app. split; [done|].
    by apply Forall_singleton.
  - rewrite place_line_first by done.
    apply Forall_app in Hb as [Hb1 Hb2]. apply Forall_cons in Hb2 as [Hp' Hb2].
    apply Forall_app. split; [done|]. constructor; [|done].
    apply held_absorb; [done|]. by destruct Hg.
Qed.

Lemma fold_place_line_held results yt xt rest : forall boxes,
  Forall (held results) rest -> Forall (held results) boxes ->
  Forall (held results) (fold_left (place_line yt xt) rest boxes).
Proof.
  induction rest as [|g rest IH]; intros boxes Hr Hb; simpl; [done|].
  apply Forall_cons in Hr as [Hg Hr]. apply IH; [done|]. by apply place_line_held.
Qed.

Lemma check_paragraph_held results yt xt gs out :
  Forall (held results) gs -> check_paragraph gs yt xt = inr out ->
  Forall (held results) out.
Proof.
  destruct gs as [|first rest]; simpl; [done|]. intros Hgs [= <-].
  apply Forall_cons in Hgs as [Hf Hr].
  rewrite fold_parag_step_place_line. apply fold_place_line_held; [done|].
  by apply Forall_singleton.
Qed.

Lemma head_filter_list_find {A} (P : A -> Prop) `{!forall a, Decision (P a)} (l : list A) :
  head (filter P l) = snd <$> list_find P l.
Proof.
  induction l as [|a l IH]; [reflexivity|].
  rewrite filter_cons. simpl. destruct (decide (P a)); [reflexivity|].
  rewrite IH. by destruct (list_find P l) as [[i b]|].
Qed.

Lemma short_list_head_last {A} (l : list A) : (length l <= 1)%nat -> last l = head l.
Proof. destruct l as [|a [|b l]]; simpl; [done|done|lia]. Qed.

Lemma fold_merge_boxes_perm l l' :
  Permutation l l' -> forall a, fold_left merge_boxes l a = fold_left merge_boxes l' a.
Proof.
  induction 1 as [|x l l' _ IH|x y l|l l' l'' _ IH1 _ IH2]; intros a; simpl.
  - reflexivity.
  - apply IH.
  - f_equal. rewrite !merge_boxes_assoc. f_equal. apply merge_boxes_comm.
  - by rewrite IH1.
Qed.

(** * The store layer *)

(** ** Running the primitives *)

Lemma bind_ok {A B : Type} (m : Store.M A) (f : A -> Store.M B) s a s' :
  m s = (inr a, s') -> Store.bind m f s = f a s'.
Proof. intros H. unfold Store.bind. by rewrite H. Qed.

Lemma get_box_ok (s : Store.store) l b :
  s !! l = Some (Store.OBox b) -> Store.get_box l s = (inr b, s).
Proof. intros H. unfold Store.get_box. by rewrite H. Qed.

Lemma get_det_ok (s : Store.store) l bl t c :
  s !! l = Some (Store.ODet bl t c) -> Store.get_det l s = (inr (bl, t), s).
Proof. intros H. unfold Store.get_det. by rewrite H. Qed.

Lemma get_group_ok (s : Store.store) l bl t :
  s !! l = Some (Store.OGroup bl t) -> Store.get_group l s = (inr (bl, t), s).
Proof. intros H. unfold Store.get_group. by rewrite H. Qed.

Lemma get_list_ok (s : Store.store) l items :
  s !! l = Some (Store.OList items) -> Store.get_list l s = (inr items, s).
Proof. intros H. unfold Store.get_list. by rewrite H. Qed.

Lemma add_text_ok (s : Store.store) g bl t suffix :
  s !! g = Some (Store.OGroup bl t) ->
  Store.add_text g suffix s = (inr tt, <[ g := Store.OGroup bl (t +:+ suffix) ]> s).
Proof.
  intros H. unfold Store.add_text. by rewrite (bind_ok _ _ _ _ _ (get_group_ok _ _ _ _ H)).
Qed.

Lemma set_box_ok (s : Store.store) g bl t box :
  s !! g = Some (Store.OGroup bl t) ->
  Store.set_box g box s = (inr tt, <[ g := Store.OGroup box t ]> s).
Proof.
  intros H. unfold Store.set_box. by rewrite (bind_ok _ _ _ _ _ (get_group_ok _ _ _ _ H)).
Qed.

Lemma append_ok (s : Store.store) l items x :
  s !! l = Some (Store.OList items) ->
  Store.append l x s = (inr tt, <[ l := Store.OList (items ++ [x]) ]> s).
Proof.
  intros H. unfold Store.append. by rewrite (bind_ok _ _ _ _ _ (get_list_ok _ _ _ H)).
Qed.

Lemma merge_boxes_ok (s : Store.store) l1 l2 b1 b2 :
  s !! l1 = Some (Store.OBox b1) -> s !! l2 = Some (Store.OBox b2) ->
  Store.merge_boxes l1 l2 s = (inr (length s), s ++ [Store.OBox (merge_boxes b1 b2)]).
Proof.
  intros H1 H2. unfold Store.merge_boxes.
  rewrite (bind_ok _ _ _ _ _ (get_box_ok _ _ _ H1)).
  by rewrite (bind_ok _ _ _ _ _ (get_box_ok _ _ _ H2)).
Qed.

Lemma is_nearby_ok (s : Store.store) l1 l2 b1 b2 xt yt ft :
  s !! l1 = Some (Store.OBox b1) -> s !! l2 = Some (Store.OBox b2) ->
  Store.is_nearby l1 l2 xt yt ft s = (inr (is_nearby b1 b2 xt yt ft), s).
Proof.
  intros H1 H2. unfold Store.is_nearby.
  rewrite (bind_ok _ _ _ _ _ (get_box_ok _ _ _ H1)).
  by rewrite (bind_ok _ _ _ _ _ (get_box_ok _ _ _ H2)).
Qed.

Lemma is_nearby_parag_ok (s : Store.store) l1 l2 b1 b2 yt xt :
  s !! l1 = Some (Store.OBox b1) -> s !! l2 = Some (Store.OBox b2) ->
  Store.is_nearby_parag l1 l2 yt xt s = (inr (is_nearby_parag b1 b2 yt xt), s).
Proof.
  intros H1 H2. unfold Store.is_nearby_parag.
  rewrite (bind_ok _ _ _ _ _ (get_box_ok _ _ _ H1)).
  by rewrite (bind_ok _ _ _ _ _ (get_box_ok _ _ _ H2)).
Qed.

Lemma Forall2_impl_elem {A B : Type} (P Q : A -> B -> Prop) l k :
  Forall2 P l k -> (forall x y, x ∈ l -> P x y -> Q x y) -> Forall2 Q l k.
Proof.
  induction 1 as [|x y l k Hxy _ IH]; intros HPQ; constructor.
  - apply HPQ; [apply list_elem_of_here|done].
  - apply IH. intros x' y' Hin. apply HPQ. by apply list_elem_of_further.
Qed.

(** ** Values held in a store *)

Lemma lookup_same_obj (s : Store.store) (l : Store.loc) o o' :
  s !! l = Some o -> s !! l = Some o' -> o = o'.
Proof. intros H H'. rewrite H in H'. by injection H'. Qed.

Ltac obj_clash :=
  match goal with
  | H1 : ?s !! ?l = Some _, H2 : ?s !! ?l = Some _ |- _ =>
      let E := fresh in
      pose proof (lookup_same_obj _ _ _ _ H1 H2) as E; discriminate E
  end.

Lemma val_box_Some (s : Store.store) l b :
  Store.val_box s l = Some b <-> s !! l = Some (Store.OBox b).
Proof.
  unfold Store.val_box. destruct (s !! l) as [[]|]; split; intros H; by simplify_eq.
Qed.

Lemma val_det_Some (s : Store.store) l d :
  Store.val_det s l = Some d <->
  exists bl, s !! l = Some (Store.ODet bl (det_text d) (det_conf d))
             /\ s !! bl = Some (Store.OBox (det_box d)).
Proof.
  unfold Store.val_det. split.
  - destruct (s !! l) as [[| bl t c | |]|]; try done.
    destruct (Store.val_box s bl) as [b|] eqn:Hb; simpl; [|done].
    intros [= <-]. exists bl. split; [done|]. by apply val_box_Some.
  - intros (bl & -> & Hb). apply val_box_Some in Hb. rewrite Hb. simpl. by destruct d.
Qed.

Lemma val_group_Some (s : Store.store) l (g : Group) :
  Store.val_group s l = Some g <->
  exists bl, s !! l = Some (Store.OGroup bl g.2) /\ s !! bl = Some (Store.OBox g.1).
Proof.
  unfold Store.val_group. split.
  - destruct (s !! l) as [[| | bl t |]|]; try done.
    destruct (Store.val_box s bl) as [b|] eqn:Hb; simpl; [|done].
    intros [= <-]. exists bl. split; [done|]. by apply val_box_Some.
  - intros (bl & -> & Hb). apply val_box_Some in Hb. rewrite Hb. simpl. by destruct g.
Qed.

Lemma differs_at_app ws s e : differs_at ws s (s ++ e).
Proof. intros k o _ H. by apply lookup_app_l_Some. Qed.

Lemma differs_at_insert ws w s o : w ∈ ws -> differs_at ws s (<[ w := o ]> s).
Proof.
  intros Hw k o' Hk H. rewrite list_lookup_insert_ne; [done|]. by intros ->.
Qed.

Lemma differs_at_trans ws s1 s2 s3 :
  differs_at ws s1 s2 -> differs_at ws s2 s3 -> differs_at ws s1 s3.
Proof. intros H12 H23 k o Hk H. by apply H23, H12. Qed.

Lemma differs_at_single w s s' k o :
  differs_at [w] s s' -> k <> w -> s !! k = Some o -> s' !! k = Some o.
Proof. intros Hd Hk. apply Hd. by intros ->%list_elem_of_singleton. Qed.

Lemma not_a_box_group (s : Store.store) w bl t :
  s !! w = Some (Store.OGroup bl t) -> not_a_box s w.
Proof. intros H b Hb. obj_clash. Qed.

Lemma not_a_box_list (s : Store.store) w items :
  s !! w = Some (Store.OList items) -> not_a_box s w.
Proof. intros H b Hb. obj_clash. Qed.

Lemma val_det_differs ws (s s' : Store.store) l d :
  differs_at ws s s' -> Forall (not_a_box s) ws -> l ∉ ws ->
  Store.val_det s l = Some d -> Store.val_det s' l = Some d.
Proof.
  intros Hd Hw Hl H. apply val_det_Some in H as (bl & H1 & H2).
  apply val_det_Some. exists bl. split; apply Hd; try done.
  intros Hin. rewrite Forall_forall in Hw. by eapply Hw.
Qed.

Lemma val_group_differs ws (s s' : Store.store) l g :
  differs_at ws s s' -> Forall (not_a_box s) ws -> l ∉ ws ->
  Store.val_group s l = Some g -> Store.val_group s' l = Some g.
Proof.
  intros Hd Hw Hl H. apply val_group_Some in H as (bl & H1 & H2).
  apply val_group_Some. exists bl. split; apply Hd; try done.
  intros Hin. rewrite Forall_forall in Hw. by eapply Hw.
Qed.

Lemma val_group_differs1 w (s s' : Store.store) l g :
  differs_at [w] s s' -> not_a_box s w -> l <> w ->
  Store.val_group s l = Some g -> Store.val_group s' l = Some g.
Proof.
  intros Hd Hw Hl. apply (val_group_differs [w]); [done|by constructor|].
  by intros ->%list_elem_of_singleton.
Qed.

Lemma val_det_differs1 w (s s' : Store.store) l d :
  differs_at [w] s s' -> not_a_box s w -> l <> w ->
  Store.val_det s l = Some d -> Store.val_det s' l = Some d.
Proof.
  intros Hd Hw Hl. apply (val_det_differs [w]); [done|by constructor|].
  by intros ->%list_elem_of_singleton.
Qed.

(** A store that keeps every object of another keeps its values. *)
Lemma val_det_keep (s s' : Store.store) l d :
  (forall k o, s !! k = Some o -> s' !! k = Some o) ->
  Store.val_det s l = Some d -> Store.val_det s' l = Some d.
Proof.
  intros Hk H. apply val_det_Some in H as (bl & H1 & H2).
  apply val_det_Some. exists bl. split; by apply Hk.
Qed.

Lemma val_group_keep (s s' : Store.store) l g :
  (forall k o, s !! k = Some o -> s' !! k = Some o) ->
  Store.val_group s l = Some g -> Store.val_group s' l = Some g.
Proof.
  intros Hk H. apply val_group_Some in H as (bl & H1 & H2).
  apply val_group_Some. exists bl. split; by apply Hk.
Qed.

Lemma val_dets_Some (s : Store.store) (l : Store.loc) ds :
  Store.val_dets s l = Some ds <->
  exists items, s !! l = Some (Store.OList items)
                /\ Forall2 (fun x d => Store.val_det s x = Some d) items ds.
Proof.
  unfold Store.val_dets. split.
  - destruct (s !! l) as [[| | |items]|]; try done.
    intros H. exists items. split; [done|]. by apply mapM_Some.
  - intros (items & -> & H). by apply mapM_Some.
Qed.

Lemma val_groups_Some (s : Store.store) (l : Store.loc) gs :
  Store.val_groups s l = Some gs <->
  exists items, s !! l = Some (Store.OList items)
                /\ Forall2 (fun x g => Store.val_group s x = Some g) items gs.
Proof.
  unfold Store.val_groups. split.
  - destruct (s !! l) as [[| | |items]|]; try done.
    intros H. exists items. split; [done|]. by apply mapM_Some.
  - intros (items & -> & H). by apply mapM_Some.
Qed.

(** ** Sorting in the store *)

Section sorting_related.
Context {A B : Type} (R : A -> B -> Prop) (keyA : A -> Z * Z) (keyB : B -> Z * Z).
Hypothesis keys_agree : forall a b, R a b -> keyA a = keyB b.

Lemma insert_by_key_Forall2 x y l k :
  R x y -> Forall2 R l k ->
  Forall2 R (insert_by_key keyA x l) (insert_by_key keyB y k).
Proof.
  intros Hxy. induction 1 as [|a b l k Hab Hlk IH]; simpl.
  - by repeat constructor.
  - rewrite (keys_agree _ _ Hxy), (keys_agree _ _ Hab).
    destruct (tuple_ltb (keyB b) (keyB y)); by repeat constructor.
Qed.

Lemma sort_by_key_Forall2 l k :
  Forall2 R l k -> Forall2 R (sort_by_key keyA l) (sort_by_key keyB k).
Proof.
  induction 1 as [|a b l k Hab _ IH]; simpl; [constructor|].
  by apply insert_by_key_Forall2.
Qed.

End sorting_related.

Lemma key_of_ok (s : Store.store) l d :
  Store.val_det s l = Some d -> Store.key_of l s = (inr (sort_key d), s).
Proof.
  intros H. apply val_det_Some in H as (bl & H1 & H2). unfold Store.key_of.
  rewrite (bind_ok _ _ _ _ _ (get_det_ok _ _ _ _ _ H1)). simpl.
  by rewrite (bind_ok _ _ _ _ _ (get_box_ok _ _ _ H2)).
Qed.

Lemma map_m_key_of_ok (s : Store.store) items ds :
  Forall2 (fun l d => Store.val_det s l = Some d) items ds ->
  Store.map_m Store.key_of items s = (inr (sort_key <$> ds), s).
Proof.
  induction 1 as [|l d items ds Hl _ IH]; [reflexivity|]. simpl.
  rewrite (bind_ok _ _ _ _ _ (key_of_ok _ _ _ Hl)).
  by rewrite (bind_ok _ _ _ _ _ IH).
Qed.

Lemma zip_keys_related (s : Store.store) items ds :
  Forall2 (fun l d => Store.val_det s l = Some d) items ds ->
  Forall2 (fun (kl : Z * Z * Store.loc) d =>
             kl.1 = sort_key d /\ Store.val_det s kl.2 = Some d)
          (zip (sort_key <$> ds) items) ds.
Proof.
  induction 1 as [|l d items ds Hl _ IH]; [constructor|].
  rewrite fmap_cons. simpl. by constructor.
Qed.

Lemma list_sort_ok (s : Store.store) results items ds :
  s !! results = Some (Store.OList items) ->
  Forall2 (fun l d => Store.val_det s l = Some d) items ds ->
  Store.list_sort results s
  = (inr tt, <[ results := Store.OList (sorted_refs ds items) ]> s).
Proof.
  intros Hres Hds. unfold Store.list_sort.
  rewrite (bind_ok _ _ _ _ _ (get_list_ok _ _ _ Hres)).
  by rewrite (bind_ok _ _ _ _ _ (map_m_key_of_ok _ _ _ Hds)).
Qed.

Lemma sorted_refs_perm ds items :
  length items = length ds -> Permutation (sorted_refs ds items) items.
Proof.
  intros Hlen. unfold sorted_refs. rewrite (sort_by_key_perm fst).
  rewrite snd_zip; [done|]. rewrite length_fmap. lia.
Qed.

Lemma sorted_refs_vals (s : Store.store) items ds :
  Forall2 (fun l d => Store.val_det s l = Some d) items ds ->
  Forall2 (fun l d => Store.val_det s l = Some d)
          (sorted_refs ds items) (sort_by_key sort_key ds).
Proof.
  intros Hds. unfold sorted_refs. apply Forall2_fmap_l.
  eapply Forall2_impl.
  - apply (sort_by_key_Forall2 _ fst sort_key); [|by apply zip_keys_related].
    by intros kl d [-> _].
  - by intros kl d [_ H].
Qed.

(** ** The loop of [group_text_boxes] *)

Lemma lines_inv_fresh base s gl gs :
  lines_inv base s gl gs -> (length base < length s)%nat.
Proof. intros (_ & H & _). by apply lookup_lt_Some in H. Qed.

(** Appending a new group [[box, text]] to [grouped_texts]. *)
Lemma start_group_inv base s gl gs bl b t :
  lines_inv base s gl gs -> base !! bl = Some (Store.OBox b) ->
  lines_inv base
    (<[ length base := Store.OList (gl ++ [length s]) ]> (s ++ [Store.OGroup bl t]))
    (gl ++ [length s]) (gs ++ [(b, t)]).
Proof.
  intros Hinv Hbl. pose proof (lines_inv_fresh _ _ _ _ Hinv) as Hlen.
  destruct Hinv as (Hext & Hgl & Hval & Hnd).
  set (s' := <[ length base := _ ]> (s ++ _)).
  assert (differs_at [length base] s s') as Hd.
  { eapply differs_at_trans; [apply differs_at_app|].
    apply differs_at_insert, list_elem_of_here. }
  pose proof (not_a_box_list _ _ _ Hgl) as Hnb.
  split_and!.
  - intros k o Hk. apply (differs_at_single _ _ _ _ _ Hd); [|by apply Hext].
    apply lookup_lt_Some in Hk. lia.
  - subst s'. apply list_lookup_insert_eq. rewrite length_app. simpl. lia.
  - apply Forall2_app.
    + eapply Forall2_impl; [exact Hval|]. intros l g [Hl Hg]. split; [done|].
      eapply val_group_differs1; [exact Hd|exact Hnb|lia|exact Hg].
    + constructor; [|constructor]. split; [lia|].
      apply val_group_Some. exists bl. simpl. split.
      * subst s'. rewrite list_lookup_insert_ne by lia.
        by rewrite lookup_app_r, Nat.sub_diag by lia.
      * apply (differs_at_single _ _ _ _ _ Hd); [|by apply Hext].
        apply lookup_lt_Some in Hbl. lia.
  - apply NoDup_app. split_and!; [done| |apply NoDup_singleton].
    intros l Hl ->%list_elem_of_singleton.
    apply list_elem_of_lookup in Hl as [i Hi].
    destruct (Forall2_lookup_l _ _ _ i _ Hval Hi) as (g & _ & _ & Hg).
    apply val_group_Some in Hg as (bl' & Hg & _). apply lookup_lt_Some in Hg. lia.
Qed.

(** Merging a detection into the last group of [grouped_texts]. *)
Lemma grow_group_inv base s gl0 g gs0 (gv : Group) gbl b t :
  lines_inv base s (gl0 ++ [g]) (gs0 ++ [gv]) ->
  s !! g = Some (Store.OGroup gbl gv.2) ->
  lines_inv base
    (<[ g := Store.OGroup (length s) (gv.2 +:+ (" " +:+ t)) ]>
       (<[ g := Store.OGroup gbl (gv.2 +:+ (" " +:+ t)) ]> s
        ++ [Store.OBox (merge_boxes gv.1 b)]))
    (gl0 ++ [g]) (gs0 ++ [absorb gv b t]).
Proof.
  intros (Hext & Hgl & Hval & Hnd) Hg.
  set (s1 := <[ g := Store.OGroup gbl _ ]> s).
  set (s' := <[ g := _ ]> (s1 ++ _)).
  assert (g < length s)%nat as Hglen by (by apply lookup_lt_Some in Hg).
  assert (length s1 = length s) as Hlen1 by apply length_insert.
  assert (differs_at [g] s s') as Hd.
  { eapply differs_at_trans; [apply differs_at_insert, list_elem_of_here|].
    eapply differs_at_trans; [apply differs_at_app|].
    apply differs_at_insert, list_elem_of_here. }
  pose proof (not_a_box_group _ _ _ _ Hg) as Hnb.
  assert (length gl0 = length gs0) as Hlen0.
  { apply Forall2_length in Hval. rewrite !length_app in Hval. simpl in Hval. lia. }
  apply Forall2_app_inv in Hval as [Hval0 Hvalg]; [|done].
  apply Forall2_cons_1 in Hvalg as [[Hfresh _] _].
  apply NoDup_app in Hnd as (Hnd0 & Hnotin & _).
  split_and!.
  - intros k o Hk. apply (differs_at_single _ _ _ _ _ Hd); [|by apply Hext].
    apply lookup_lt_Some in Hk. lia.
  - apply (differs_at_single _ _ _ _ _ Hd); [lia|done].
  - apply Forall2_app.
    + apply Forall2_same_length_lookup. split; [done|].
      intros i l v Hl Hv.
      destruct (Forall2_lookup_l _ _ _ i _ Hval0 Hl) as (v' & Hv' & Hlf & Hlv).
      simplify_eq. split; [done|].
      eapply val_group_differs1; [exact Hd|exact Hnb| |exact Hlv].
      intros ->. eapply Hnotin; [by eapply list_elem_of_lookup_2|].
      by apply list_elem_of_singleton.
    + constructor; [|constructor]. split; [done|].
      apply val_group_Some. exists (length s). simpl. split.
      * subst s'. apply list_lookup_insert_eq. rewrite length_app, Hlen1. lia.
      * subst s'. rewrite list_lookup_insert_ne by lia.
        by rewrite lookup_app_r, Hlen1, Nat.sub_diag by lia.
  - apply NoDup_app. split_and!; [done|done|apply NoDup_singleton].
Qed.

Lemma alloc_bind {B : Type} o (f : Store.loc -> Store.M B) (s : Store.store) :
  Store.bind (Store.alloc o) f s = f (length s) (s ++ [o]).
Proof. reflexivity. Qed.

Lemma line_body_step base s gl gs xt yt ft dl d :
  lines_inv base s gl gs -> Store.val_det base dl = Some d ->
  exists s' gl',
    Store.line_body xt yt ft (length base) dl s = (inr tt, s') /\
    lines_inv base s' gl' (line_step xt yt ft gs d).
Proof.
  intros Hinv Hd. pose proof Hinv as (Hext & Hgl & Hval & Hnd).
  apply val_det_Some in Hd as (bl & Hdl & Hbl).
  pose proof (Hext _ _ Hdl) as Hdl'. pose proof (Hext _ _ Hbl) as Hbl'.
  unfold Store.line_body.
  rewrite (bind_ok _ _ _ _ _ (get_det_ok _ _ _ _ _ Hdl')).
  rewrite (bind_ok _ _ _ _ _ (get_list_ok _ _ _ Hgl)).
  destruct gl as [|g gl0 _] using rev_ind.
  - apply Forall2_nil_inv_l in Hval as ->. simpl.
    rewrite alloc_bind.
    rewrite (append_ok _ _ [] _ (lookup_app_l_Some _ _ _ _ Hgl)).
    eexists _, _. split; [reflexivity|].
    rewrite line_step_nil.
    apply (start_group_inv base s [] [] bl (det_box d) (det_text d) Hinv Hbl).
  - apply Forall2_app_inv_l in Hval as (gs0 & k2 & Hval0 & Hvalg & ->).
    apply Forall2_cons_inv_l in Hvalg as (gv & k3 & [Hfresh Hgv] & Hnil & ->).
    apply Forall2_nil_inv_l in Hnil as ->.
    apply val_group_Some in Hgv as (gbl & Hg & Hgbl).
    rewrite last_snoc.
    rewrite (bind_ok _ _ _ _ _ (get_group_ok _ _ _ _ Hg)). simpl.
    rewrite (bind_ok _ _ _ _ _ (is_nearby_ok _ _ _ _ _ xt yt ft Hgbl Hbl')).
    rewrite is_nearby_spec, line_step_snoc.
    assert (g < length s)%nat as Hglen by (by apply lookup_lt_Some in Hg).
    destruct (decide (nearby_line xt yt ft gv d)) as [Hnear|Hfar].
    + rewrite bool_decide_eq_true_2 by done.
      rewrite (bind_ok _ _ _ _ _ (add_text_ok _ _ _ _ (" " +:+ det_text d) Hg)).
      set (s1 := <[ g := _ ]> s).
      assert (s1 !! g = Some (Store.OGroup gbl (gv.2 +:+ (" " +:+ det_text d)))) as Hg1
        by (by apply list_lookup_insert_eq).
      assert (s1 !! gbl = Some (Store.OBox gv.1)) as Hgbl1.
      { subst s1. rewrite list_lookup_insert_ne; [done|]. intros ->. obj_clash. }
      assert (s1 !! bl = Some (Store.OBox (det_box d))) as Hbl1.
      { subst s1. rewrite list_lookup_insert_ne; [done|]. intros ->. obj_clash. }
      rewrite (bind_ok _ _ _ _ _ (get_group_ok _ _ _ _ Hg1)). simpl.
      rewrite (bind_ok _ _ _ _ _ (merge_boxes_ok _ _ _ _ _ Hgbl1 Hbl1)).
      rewrite (set_box_ok _ _ _ _ _ (lookup_app_l_Some _ _ _ _ Hg1)).
      eexists _, _. split; [reflexivity|].
      replace (length s1) with (length s) by (symmetry; apply length_insert).
      by apply grow_group_inv.
    + rewrite bool_decide_eq_false_2 by done.
      rewrite alloc_bind.
      rewrite (append_ok _ _ _ _ (lookup_app_l_Some _ _ _ _ Hgl)).
      eexists _, _. split; [reflexivity|].
      change (gs0 ++ [gv; first_two d]) with (gs0 ++ [gv] ++ [first_two d]).
      rewrite app_assoc.
      apply (start_group_inv base s _ _ bl (det_box d) (det_text d) Hinv Hbl).
Qed.

Lemma for_each_line_body base xt yt ft items ds :
  Forall2 (fun l d => Store.val_det base l = Some d) items ds ->
  forall s gl gs,
    lines_inv base s gl gs ->
    exists s' gl',
      Store.for_each items (Store.line_body xt yt ft (length base)) s = (inr tt, s') /\
      lines_inv base s' gl' (fold_left (line_step xt yt ft) ds gs).
Proof.
  induction 1 as [|dl d items ds Hd _ IH]; intros s gl gs Hinv; simpl.
  - by eexists _, _.
  - destruct (line_body_step base s gl gs xt yt ft dl d Hinv Hd) as (s1 & gl1 & Hrun & Hinv1).
    rewrite (bind_ok _ _ _ _ _ Hrun). by apply (IH s1 gl1).
Qed.

(** ** [group_text_boxes] on a store *)

Lemma group_text_boxes_run (s0 : Store.store) results items ds xt yt ft :
  s0 !! results = Some (Store.OList items) ->
  Forall2 (fun l d => Store.val_det s0 l = Some d) items ds ->
  exists s1 gl,
    Store.group_text_boxes results xt yt ft s0 = (inr (length s0), s1) /\
    lines_inv (<[ results := Store.OList (sorted_refs ds items) ]> s0) s1 gl
              (group_text_boxes ds xt yt ft).
Proof.
  intros Hres Hds.
  set (base := <[ results := Store.OList (sorted_refs ds items) ]> s0).
  assert (results < length s0)%nat as Hrlen by (by apply lookup_lt_Some in Hres).
  assert (length base = length s0) as Hblen by apply length_insert.
  assert (differs_at [results] s0 base) as Hd
    by apply differs_at_insert, list_elem_of_here.
  pose proof (not_a_box_list _ _ _ Hres) as Hnb.
  assert (Forall2 (fun l d => Store.val_det base l = Some d)
            (sorted_refs ds items) (sort_by_key sort_key ds)) as Hsorted.
  { eapply Forall2_impl; [by apply sorted_refs_vals|].
    intros l d Hl. eapply val_det_differs1; [exact Hd|exact Hnb| |exact Hl].
    intros ->. apply val_det_Some in Hl as (bl & Hl & _). obj_clash. }
  unfold Store.group_text_boxes. rewrite alloc_bind.
  assert (Store.list_sort results (s0 ++ [Store.OList []])
          = (inr tt, base ++ [Store.OList []])) as Hsort.
  { rewrite (list_sort_ok _ _ items ds).
    - subst base. by rewrite insert_app_l.
    - by apply lookup_app_l_Some.
    - eapply Forall2_impl; [exact Hds|]. intros l d Hl.
      eapply val_det_keep; [|exact Hl]. intros k o. apply lookup_app_l_Some. }
  rewrite (bind_ok _ _ _ _ _ Hsort).
  assert (base !! results = Some (Store.OList (sorted_refs ds items))) as Hres'
    by (by apply list_lookup_insert_eq).
  rewrite (bind_ok _ _ _ _ _ (get_list_ok _ _ _ (lookup_app_l_Some _ _ _ _ Hres'))).
  assert (lines_inv base (base ++ [Store.OList []]) [] []) as Hinv.
  { split_and!.
    - intros k o. apply lookup_app_l_Some.
    - by rewrite lookup_app_r, Nat.sub_diag by lia.
    - constructor.
    - constructor. }
  destruct (for_each_line_body base xt yt ft _ _ Hsorted _ _ _ Hinv)
    as (s1 & gl & Hrun & Hinv1).
  rewrite <- Hblen. rewrite (bind_ok _ _ _ _ _ Hrun).
  exists s1, gl. split; [reflexivity|exact Hinv1].
Qed.

(** What a caller of [group_text_boxes] finds in the store afterwards. *)
Lemma group_text_boxes_effect (s0 : Store.store) results ds xt yt ft :
  Store.val_dets s0 results = Some ds ->
  exists s1 items gl,
    Store.group_text_boxes results xt yt ft s0 = (inr (length s0), s1) /\
    s0 !! results = Some (Store.OList items) /\
    Permutation (sorted_refs ds items) items /\
    s1 !! results = Some (Store.OList (sorted_refs ds items)) /\
    (forall k o, k <> results -> s0 !! k = Some o -> s1 !! k = Some o) /\
    Store.val_dets s1 results = Some (sort_by_key sort_key ds) /\
    s1 !! length s0 = Some (Store.OList gl) /\
    Forall (fun g => (length s0 < g)%nat) gl /\
    NoDup gl /\
    Forall2 (fun l g => Store.val_group s1 l = Some g) gl (group_text_boxes ds xt yt ft) /\
    Store.val_groups s1 (length s0) = Some (group_text_boxes ds xt yt ft).
Proof.
  intros (items & Hres & Hds)%val_dets_Some.
  destruct (group_text_boxes_run s0 results items ds xt yt ft Hres Hds)
    as (s1 & gl & Hrun & Hext & Hgl & Hval & Hnd).
  assert (length (<[ results := Store.OList (sorted_refs ds items) ]> s0) = length s0)
    as Hblen by apply length_insert.
  rewrite Hblen in Hgl.
  assert (results < length s0)%nat as Hrlen by (by apply lookup_lt_Some in Hres).
  assert (s1 !! results = Some (Store.OList (sorted_refs ds items))) as Hres1
    by (by apply Hext, list_lookup_insert_eq).
  pose proof (not_a_box_list _ _ _ Hres) as Hnb.
  assert (Forall2 (fun l g => Store.val_group s1 l = Some g) gl
            (group_text_boxes ds xt yt ft)) as Hvals.
  { eapply Forall2_impl; [exact Hval|]. by intros l g [_ H]. }
  exists s1, items, gl. split_and!; try done.
  - apply sorted_refs_perm. by apply Forall2_length in Hds.
  - intros k o Hk Ho. apply Hext. by rewrite list_lookup_insert_ne.
  - apply val_dets_Some. exists (sorted_refs ds items). split; [done|].
    eapply Forall2_impl; [by apply sorted_refs_vals|].
    intros l d Hl. eapply val_det_keep; [exact Hext|].
    eapply val_det_differs1;
      [apply differs_at_insert, list_elem_of_here|exact Hnb| |exact Hl].
    intros ->. apply val_det_Some in Hl as (bl & Hl & _). obj_clash.
  - eapply Forall2_Forall_l; [exact Hval|].
    apply Forall_forall. intros g _ l [Hl _]. by rewrite <- Hblen.
  - apply val_groups_Some. by exists gl.
Qed.

(** ** The loops of [check_paragraph] *)

Lemma not_in_pair (k p q : Store.loc) : k <> p -> k <> q -> k ∉ [p; q].
Proof.
  intros Hp Hq. apply not_elem_of_cons. split; [done|].
  by intros ->%list_elem_of_singleton.
Qed.

(** A paragraph [p] absorbs the line group [(box1, text1)]. *)
Lemma absorb_run (s : Store.store) p pbl pb pt box1 b1 t1 del dl :
  s !! p = Some (Store.OGroup pbl pt) ->
  s !! pbl = Some (Store.OBox pb) ->
  s !! box1 = Some (Store.OBox b1) ->
  s !! del = Some (Store.OList dl) ->
  exists s',
    Store.bind (Store.add_text p (" " +:+ t1)) (fun _ =>
      Store.bind (Store.merge_boxes pbl box1) (fun merged =>
        Store.bind (Store.set_box p merged) (fun _ =>
          Store.bind (Store.alloc (Store.OGroup box1 t1)) (fun pair =>
            Store.bind (Store.append del pair) (fun _ => Store.ret true))))) s
    = (inr true, s') /\
    differs_at [p; del] s s' /\
    Store.val_group s' p = Some (merge_boxes pb b1, pt +:+ (" " +:+ t1)) /\
    (exists dl', s' !! del = Some (Store.OList dl')).
Proof.
  intros Hp Hpbl Hbox1 Hdel.
  assert (p < length s)%nat as Hplen by (by apply lookup_lt_Some in Hp).
  assert (del < length s)%nat as Hdlen by (by apply lookup_lt_Some in Hdel).
  assert (p <> del) as Hpd by (intros ->; obj_clash).
  rewrite (bind_ok _ _ _ _ _ (add_text_ok _ _ _ _ (" " +:+ t1) Hp)).
  set (newt := pt +:+ (" " +:+ t1)).
  set (s1 := <[ p := Store.OGroup pbl newt ]> s).
  assert (length s1 = length s) as Hlen1 by apply length_insert.
  assert (s1 !! p = Some (Store.OGroup pbl newt)) as Hp1
    by (by apply list_lookup_insert_eq).
  assert (s1 !! pbl = Some (Store.OBox pb)) as Hpbl1.
  { subst s1. rewrite list_lookup_insert_ne; [done|]. intros ->. obj_clash. }
  assert (s1 !! box1 = Some (Store.OBox b1)) as Hbox11.
  { subst s1. rewrite list_lookup_insert_ne; [done|]. intros ->. obj_clash. }
  rewrite (bind_ok _ _ _ _ _ (merge_boxes_ok _ _ _ _ _ Hpbl1 Hbox11)).
  rewrite (bind_ok _ _ _ _ _
             (set_box_ok _ _ _ _ (length s1) (lookup_app_l_Some _ _ _ _ Hp1))).
  set (s3 := <[ p := Store.OGroup (length s1) newt ]>
               (s1 ++ [Store.OBox (merge_boxes pb b1)])).
  assert (length s3 = S (length s)) as Hlen3.
  { subst s3. rewrite length_insert, length_app, Hlen1. simpl. lia. }
  rewrite alloc_bind.
  assert (differs_at [p; del] s s3) as Hd3.
  { eapply differs_at_trans; [apply differs_at_insert, list_elem_of_here|].
    eapply differs_at_trans; [apply differs_at_app|].
    apply differs_at_insert, list_elem_of_here. }
  assert (s3 !! del = Some (Store.OList dl)) as Hdel3.
  { subst s3 s1. rewrite list_lookup_insert_ne by done.
    apply lookup_app_l_Some. by rewrite list_lookup_insert_ne. }
  rewrite (bind_ok _ _ _ _ _
             (append_ok _ _ _ (length s3) (lookup_app_l_Some _ _ _ _ Hdel3))).
  eexists. split; [reflexivity|]. split_and!.
  - eapply differs_at_trans; [exact Hd3|].
    eapply differs_at_trans; [apply differs_at_app|].
    apply differs_at_insert. apply list_elem_of_further, list_elem_of_here.
  - apply val_group_Some. exists (length s1). simpl. split.
    + rewrite list_lookup_insert_ne by done. apply lookup_app_l_Some.
      subst s3. apply list_lookup_insert_eq. rewrite length_app, Hlen1. lia.
    + rewrite list_lookup_insert_ne by lia. apply lookup_app_l_Some.
      subst s3. rewrite list_lookup_insert_ne by lia.
      by rewrite lookup_app_r, Nat.sub_diag by lia.
  - eexists. apply list_lookup_insert_eq. rewrite length_app, Hlen3. lia.
Qed.

Lemma scan_boxes_run yt xt del (s : Store.store) box1 b1 t1 dl :
  s !! box1 = Some (Store.OBox b1) ->
  s !! del = Some (Store.OList dl) ->
  forall pl pvs,
    Forall2 (fun l g => Store.val_group s l = Some g) pl pvs ->
    NoDup pl ->
    match scan_boxes yt xt pvs b1 t1 with
    | None => Store.scan_boxes yt xt del pl box1 t1 s = (inr false, s)
    | Some pvs' =>
        exists s' p,
          Store.scan_boxes yt xt del pl box1 t1 s = (inr true, s') /\
          p ∈ pl /\ differs_at [p; del] s s' /\
          Forall2 (fun l g => Store.val_group s' l = Some g) pl pvs' /\
          (exists dl', s' !! del = Some (Store.OList dl'))
    end.
Proof.
  intros Hbox1 Hdel. pose proof (not_a_box_list _ _ _ Hdel) as Hnbd.
  induction 1 as [|p [pb pt] pl pvs Hp Hrest IH]; intros Hnd; [reflexivity|].
  apply NoDup_cons in Hnd as [Hpnotin Hnd]. specialize (IH Hnd).
  pose proof Hp as (pbl & Hp1 & Hp2)%val_group_Some. simpl in Hp1, Hp2.
  pose proof (not_a_box_group _ _ _ _ Hp1) as Hnbp.
  assert (forall l g, l ∈ pl -> Store.val_group s l = Some g -> l <> del) as Hnotdel.
  { intros l g _ (gbl & Hl & _)%val_group_Some ->. obj_clash. }
  simpl.
  rewrite (bind_ok _ _ _ _ _ (get_group_ok _ _ _ _ Hp1)).
  rewrite (bind_ok _ _ _ _ _ (is_nearby_parag_ok _ _ _ _ _ yt xt Hp2 Hbox1)).
  destruct (is_nearby_parag pb b1 yt xt); cbv beta iota.
  - destruct (absorb_run s p pbl pb pt box1 b1 t1 del dl Hp1 Hp2 Hbox1 Hdel)
      as (s' & Hrun & Hd & Hpv & Hdl').
    exists s', p. split_and!; [exact Hrun|apply list_elem_of_here|exact Hd| |exact Hdl'].
    constructor; [exact Hpv|].
    eapply Forall2_impl_elem; [exact Hrest|]. intros l v Hin Hlv.
    eapply val_group_differs; [exact Hd| | |exact Hlv].
    + constructor; [exact Hnbp|]. constructor; [exact Hnbd|constructor].
    + apply not_in_pair; [|exact (Hnotdel l v Hin Hlv)]. intros ->. exact (Hpnotin Hin).
  - destruct (scan_boxes yt xt pvs b1 t1) as [pvs'|]; simpl; [|exact IH].
    destruct IH as (s' & p' & Hrun & Hin & Hd & Hvals & Hdl').
    exists s', p'. split_and!; [exact Hrun|by apply list_elem_of_further|exact Hd| |exact Hdl'].
    constructor; [|exact Hvals].
    eapply val_group_differs; [exact Hd|idtac| |exact Hp].
    + constructor; [|constructor; [exact Hnbd|constructor]].
      apply list_elem_of_lookup in Hin as [i Hi].
      destruct (Forall2_lookup_l _ _ _ i _ Hrest Hi) as (v' & _ & (gbl & Hg & _)%val_group_Some).
      by eapply not_a_box_group.
    + apply not_in_pair; [|intros ->; obj_clash]. intros ->. exact (Hpnotin Hin).
Qed.

Lemma parag_inv_NoDup s0 first s bl ps :
  parag_inv s0 first s bl ps -> NoDup (first :: bl).
Proof.
  intros (Hflen & _ & _ & _ & _ & Hfresh & Hnd). apply NoDup_cons. split; [|done].
  intros Hin. rewrite Forall_forall in Hfresh. specialize (Hfresh _ Hin). lia.
Qed.

Lemma parag_inv_old_or_fresh s0 first s bl ps p :
  parag_inv s0 first s bl ps -> p ∈ first :: bl ->
  p = first \/ (S (length s0) < p)%nat.
Proof.
  intros (_ & _ & _ & _ & _ & Hfresh & _) [->|Hin]%elem_of_cons; [by left|].
  right. rewrite Forall_forall in Hfresh. by apply Hfresh.
Qed.

Lemma parag_body_step s0 first s bl ps yt xt g gv :
  parag_inv s0 first s bl ps ->
  Store.val_group s g = Some gv ->
  exists s' bl',
    Store.parag_body yt xt (length s0) (S (length s0)) g s = (inr tt, s') /\
    parag_inv s0 first s' bl' (parag_step yt xt ps gv).
Proof.
  intros Hinv Hgv. pose proof (parag_inv_NoDup _ _ _ _ _ Hinv) as Hnd1.
  pose proof Hinv as (Hflen & Hd0 & Hboxes & (dl & Hdel) & Hvals & Hfresh & Hnd).
  destruct gv as [b1 t1].
  pose proof Hgv as (box1 & Hg & Hbox1)%val_group_Some. simpl in Hg, Hbox1.
  unfold Store.parag_body.
  rewrite (bind_ok _ _ _ _ _ (get_group_ok _ _ _ _ Hg)). cbv beta iota.
  rewrite (bind_ok _ _ _ _ _ (get_list_ok _ _ _ Hboxes)).
  pose proof (scan_boxes_run yt xt (S (length s0)) s box1 b1 t1 dl Hbox1 Hdel
                (first :: bl) ps Hvals Hnd1) as Hscan.
  unfold parag_step.
  destruct (scan_boxes yt xt ps b1 t1) as [ps'|].
  - destruct Hscan as (s' & p & Hrun & Hin & Hd & Hvals' & Hdl').
    rewrite (bind_ok _ _ _ _ _ Hrun). cbv beta iota.
    exists s', bl. split; [reflexivity|].
    destruct (parag_inv_old_or_fresh _ _ _ _ _ _ Hinv Hin) as [Hp|Hp].
    + split_and!; try done.
      * intros k o Hk Hs0. apply Hd; [|by apply Hd0].
        apply lookup_lt_Some in Hs0. apply not_in_pair; [|lia].
        intros ->. apply Hk. subst. apply list_elem_of_here.
      * apply Hd; [|done]. apply not_in_pair; lia.
    + split_and!; try done.
      * intros k o Hk Hs0. apply Hd; [|by apply Hd0].
        apply lookup_lt_Some in Hs0. apply not_in_pair; lia.
      * apply Hd; [|done]. apply not_in_pair; lia.
  - rewrite (bind_ok _ _ _ _ _ Hscan). cbv beta iota.
    rewrite alloc_bind.
    rewrite (append_ok _ _ _ (length s) (lookup_app_l_Some _ _ _ _ Hboxes)).
    set (s' := <[ length s0 := Store.OList ((first :: bl) ++ [length s]) ]>
                 (s ++ [Store.OGroup box1 t1])).
    assert (differs_at [length s0] s s') as Hd.
    { eapply differs_at_trans; [apply differs_at_app|].
      apply differs_at_insert, list_elem_of_here. }
    pose proof (not_a_box_list _ _ _ Hboxes) as Hnb.
    assert (S (length s0) < length s)%nat as Hslen by (by apply lookup_lt_Some in Hdel).
    assert (forall l v, Store.val_group s l = Some v -> (l < length s)%nat /\ l <> length s0)
      as Hgrp.
    { intros l v (gbl & Hl & _)%val_group_Some. split; [by apply lookup_lt_Some in Hl|].
      intros ->. obj_clash. }
    exists s', (bl ++ [length s]). split; [reflexivity|]. split_and!.
    + done.
    + intros k o Hk Hs0. apply (differs_at_single _ _ _ _ _ Hd); [|by apply Hd0].
      apply lookup_lt_Some in Hs0. lia.
    + subst s'. apply list_lookup_insert_eq. rewrite length_app. simpl. lia.
    + exists dl. apply (differs_at_single _ _ _ _ _ Hd); [lia|done].
    + change (first :: bl ++ [length s]) with ((first :: bl) ++ [length s]).
      apply Forall2_app.
      * eapply Forall2_impl; [exact Hvals|]. intros l v Hlv.
        eapply val_group_differs1; [exact Hd|exact Hnb| |exact Hlv].
        by apply (Hgrp l v).
      * constructor; [|constructor]. apply val_group_Some. exists box1. simpl. split.
        -- subst s'. rewrite list_lookup_insert_ne by lia.
           by rewrite lookup_app_r, Nat.sub_diag by lia.
        -- apply (differs_at_single _ _ _ _ _ Hd); [|done]. intros ->. obj_clash.
    + apply Forall_app. split; [done|]. by repeat constructor.
    + apply NoDup_app. split_and!; [done| |apply NoDup_singleton].
      intros l Hl ->%list_elem_of_singleton.
      apply Forall2_cons_inv_l in Hvals as (pv & ps' & _ & Hvals & _).
      apply list_elem_of_lookup in Hl as [i Hi].
      destruct (Forall2_lookup_l _ _ _ i _ Hvals Hi) as (v & _ & Hv).
      apply Hgrp in Hv. lia.
Qed.

Lemma for_each_parag_body s0 first yt xt rest :
  not_a_box s0 first ->
  Forall (fun g => is_Some (Store.val_group s0 g)) rest ->
  forall s bl ps,
    parag_inv s0 first s bl ps ->
    exists s' bl' gvs,
      Store.for_each rest (Store.parag_body yt xt (length s0) (S (length s0))) s
      = (inr tt, s') /\
      parag_inv s0 first s' bl' (fold_left (parag_step yt xt) gvs ps) /\
      (first ∉ rest -> Forall2 (fun l g => Store.val_group s0 l = Some g) rest gvs).
Proof.
  intros Hnb. induction 1 as [|g rest [gv0 Hg0] _ IH]; intros s bl ps Hinv.
  - exists s, bl, []. split_and!; [reflexivity|done|by constructor].
  - assert (exists gv, Store.val_group s g = Some gv
                       /\ (g <> first -> gv = gv0)) as (gv & Hgv & Hsame).
    { destruct (decide (g = first)) as [->|Hne].
      - destruct Hinv as (_ & _ & _ & _ & Hvals & _).
        apply Forall2_cons_inv_l in Hvals as (pv & ps' & Hpv & _ & _).
        exists pv. by split.
      - exists gv0. split; [|done].
        destruct Hinv as (_ & Hd0 & _).
        eapply val_group_differs1; [exact Hd0|exact Hnb|exact Hne|exact Hg0]. }
    destruct (parag_body_step s0 first s bl ps yt xt g gv Hinv Hgv)
      as (s1 & bl1 & Hrun & Hinv1).
    destruct (IH s1 bl1 _ Hinv1) as (s' & bl' & gvs & Hrun' & Hinv' & Hvals').
    exists s', bl', (gv :: gvs). simpl. split_and!.
    + by rewrite (bind_ok _ _ _ _ _ Hrun).
    + exact Hinv'.
    + intros [Hne Hnotin]%not_elem_of_cons. constructor; [|by apply Hvals'].
      rewrite (Hsame (not_eq_sym Hne)). exact Hg0.
Qed.

Lemma check_paragraph_run (s0 : Store.store) gt first rest fv yt xt :
  s0 !! gt = Some (Store.OList (first :: rest)) ->
  Store.val_group s0 first = Some fv ->
  Forall (fun g => is_Some (Store.val_group s0 g)) rest ->
  exists s1 bl gvs,
    Store.check_paragraph gt yt xt s0 = (inr (length s0), s1) /\
    parag_inv s0 first s1 bl (fold_left (parag_step yt xt) gvs [fv]) /\
    (first ∉ rest -> Forall2 (fun l g => Store.val_group s0 l = Some g) rest gvs).
Proof.
  intros Hgt Hfv Hrest.
  pose proof Hfv as (fbl & Hf & Hfb)%val_group_Some.
  pose proof (not_a_box_group _ _ _ _ Hf) as Hnb.
  assert (first < length s0)%nat as Hflen by (by apply lookup_lt_Some in Hf).
  set (s := (s0 ++ [Store.OList [first]]) ++ [Store.OList []]).
  assert (parag_inv s0 first s [] [fv]) as Hinv.
  { assert (forall k o, s0 !! k = Some o -> s !! k = Some o) as Hkeep.
    { intros k o Hk. subst s. by apply lookup_app_l_Some, lookup_app_l_Some. }
    split_and!.
    - done.
    - intros k o _. apply Hkeep.
    - subst s. apply lookup_app_l_Some. by rewrite lookup_app_r, Nat.sub_diag by lia.
    - exists []. subst s. rewrite lookup_app_r; rewrite length_app; simpl; [|lia].
      by replace (S (length s0) - (length s0 + 1))%nat with 0%nat by lia.
    - constructor; [|constructor]. by eapply val_group_keep.
    - constructor.
    - constructor. }
  destruct (for_each_parag_body s0 first yt xt rest Hnb Hrest s [] [fv] Hinv)
    as (s1 & bl & gvs & Hrun & Hinv1 & Hvals).
  exists s1, bl, gvs. split_and!; [|exact Hinv1|exact Hvals].
  unfold Store.check_paragraph.
  rewrite (bind_ok _ _ _ _ _ (get_list_ok _ _ _ Hgt)). cbv beta iota.
  rewrite !alloc_bind.
  replace (length (s0 ++ [Store.OList [first]])) with (S (length s0))
    by (rewrite length_app; simpl; lia).
  fold s. by rewrite (bind_ok _ _ _ _ _ Hrun).
Qed.

Lemma check_paragraph_run_empty (s0 : Store.store) gt yt xt :
  s0 !! gt = Some (Store.OList []) ->
  Store.check_paragraph gt yt xt s0 = (inl IndexError, s0).
Proof.
  intros Hgt. unfold Store.check_paragraph.
  by rewrite (bind_ok _ _ _ _ _ (get_list_ok _ _ _ Hgt)).
Qed.

(** ** The two passes chained *)

Lemma Forall2_val_functional {A B : Type} (f : A -> option B) l k k' :
  Forall2 (fun x y => f x = Some y) l k ->
  Forall2 (fun x y => f x = Some y) l k' -> k = k'.
Proof.
  intros H H'. apply mapM_Some in H, H'. rewrite H in H'. by injection H'.
Qed.

Lemma group_text_boxes_sorted_input ds xt yt ft :
  group_text_boxes (sort_by_key sort_key ds) xt yt ft = group_text_boxes ds xt yt ft.
Proof. unfold group_text_boxes. by rewrite sort_by_key_idem. Qed.

Lemma pipeline_sorted_input ds : pipeline (sort_by_key sort_key ds) = pipeline ds.
Proof. unfold pipeline. by rewrite group_text_boxes_sorted_input. Qed.

(** What a caller of [check_paragraph] finds in the store afterwards. *)
Lemma check_paragraph_effect (s0 : Store.store) gt first rest gs yt xt :
  s0 !! gt = Some (Store.OList (first :: rest)) ->
  Store.val_groups s0 gt = Some gs ->
  exists s1 bl out,
    Store.check_paragraph gt yt xt s0 = (inr (length s0), s1) /\
    (forall k o, k <> first -> s0 !! k = Some o -> s1 !! k = Some o) /\
    s1 !! length s0 = Some (Store.OList (first :: bl)) /\
    Forall (fun g => (length s0 < g)%nat) bl /\
    NoDup (first :: bl) /\
    (first < length s0)%nat /\
    not_a_box s0 first /\
    Store.val_groups s1 (length s0) = Some out /\
    (first ∉ rest -> check_paragraph gs yt xt = inr out).
Proof.
  intros Hgt (items & Hgt' & Hvals)%val_groups_Some.
  pose proof (lookup_same_obj _ _ _ _ Hgt Hgt') as [= <-].
  apply Forall2_cons_inv_l in Hvals as (fv & gvs0 & Hfv & Hvals & ->).
  assert (Forall (fun g => is_Some (Store.val_group s0 g)) rest) as Hrest.
  { eapply Forall2_Forall_l; [exact Hvals|]. apply Forall_forall. by eauto. }
  destruct (check_paragraph_run s0 gt first rest fv yt xt Hgt Hfv Hrest)
    as (s1 & bl & gvs & Hrun & Hinv & Hsame).
  pose proof (parag_inv_NoDup _ _ _ _ _ Hinv) as Hnd.
  destruct Hinv as (Hflen & Hd & Hboxes & _ & Hout & Hfresh & _).
  pose proof Hfv as (fbl & Hf & _)%val_group_Some.
  exists s1, bl, (fold_left (parag_step yt xt) gvs [fv]). split_and!; try done.
  - intros k o Hk. by apply (differs_at_single _ _ _ _ _ Hd).
  - eapply Forall_impl; [exact Hfresh|]. intros l Hl. simpl in Hl. lia.
  - by eapply not_a_box_group.
  - apply val_groups_Some. by exists (first :: bl).
  - intros Hnotin. simpl.
    by rewrite (Forall2_val_functional _ _ _ _ Hvals (Hsame Hnotin)).
Qed.

(** The store-level pipeline computes what the value-level one does, and
    leaves [results] holding the detections in sorted order. *)
Lemma pipeline_refines (s0 : Store.store) results ds :
  Store.val_dets s0 results = Some ds ->
  Store.observe (Store.pipeline results s0) = pipeline ds /\
  Store.val_dets (Store.pipeline results s0).2 results = Some (sort_by_key sort_key ds).
Proof.
  intros Hds.
  destruct (group_text_boxes_effect s0 results ds x_threshold_default y_threshold_default
              font_threshold_default Hds)
    as (s1 & items & gl & Hrun & Hres & _ & Hres1 & _ & Hdets1 & Hgl & Hfresh & Hnd & Hvals & Hgs).
  unfold Store.pipeline. rewrite (bind_ok _ _ _ _ _ Hrun). unfold pipeline.
  destruct gl as [|first rest].
  - apply Forall2_nil_inv_l in Hvals. rewrite Hvals.
    rewrite (check_paragraph_run_empty _ _ _ _ Hgl). by split.
  - destruct (check_paragraph_effect s1 (length s0) first rest _ parag_y_threshold_default
                parag_x_threshold_default Hgl Hgs)
      as (s2 & bl & out & Hrun2 & Hkeep & _ & _ & _ & _ & Hnbf & Hout & Hpure).
    rewrite Hrun2. apply NoDup_cons in Hnd as [Hnotin _].
    pose proof Hvals as (fv & gvs & (fb & Hfg & _)%val_group_Some & _ & _)%Forall2_cons_inv_l.
    split.
    + unfold Store.observe. simpl. rewrite Hout. symmetry. by apply Hpure.
    + simpl. apply val_dets_Some in Hdets1 as (items1 & Hres1' & Hdv).
      apply val_dets_Some. exists items1. split.
      * apply Hkeep; [|done]. intros ->. obj_clash.
      * eapply Forall2_impl; [exact Hdv|]. intros l d Hl.
        eapply (val_det_differs1 first); [|exact Hnbf| |exact Hl].
        -- intros k o Hk. apply Hkeep. intros ->. apply Hk, list_elem_of_here.
        -- intros ->. apply val_det_Some in Hl as (b & Hl & _). obj_clash.
Qed.

(** With no detection at all the chained passes raise. *)
Lemma store_pipeline_empty_raises (s0 : Store.store) results :
  s0 !! results = Some (Store.OList []) ->
  (Store.pipeline results s0).1 = inl IndexError.
Proof.
  intros Hres.
  assert (Store.val_dets s0 results = Some []) as Hds.
  { apply val_dets_Some. exists []. split; [done|constructor]. }
  destruct (pipeline_refines s0 results [] Hds) as [Hobs _].
  unfold Store.observe in Hobs.
  destruct (Store.pipeline results s0) as [[e|l] s1]; simpl in *.
  - by injection Hobs as ->.
  - by destruct (Store.val_groups s1 l).
Qed.

(** * Further properties *)

(** ** Extents *)

Lemma ext_le_refl a : ext_le a a.
Proof. unfold ext_le. lia. Qed.

Lemma ext_le_trans a b c : ext_le a b -> ext_le b c -> ext_le a c.
Proof. unfold ext_le. lia. Qed.

Lemma ext_le_merge_l a b : ext_le a (merge_boxes a b).
Proof. unfold ext_le, merge_boxes, px, py; simpl. lia. Qed.

Lemma ext_le_merge_r a b : ext_le b (merge_boxes a b).
Proof. unfold ext_le, merge_boxes, px, py; simpl. lia. Qed.

Lemma ext_le_merge_least a b r : ext_le a r -> ext_le b r -> ext_le (merge_boxes a b) r.
Proof. unfold ext_le, merge_boxes, px, py; simpl. lia. Qed.

Lemma inside_ext_le (a b : Box) p : inside a p -> ext_le a b -> inside b p.
Proof. unfold inside, ext_le. lia. Qed.

Lemma winding_merge_self a : winding a -> merge_boxes a a = a.
Proof.
  destruct a as [[x0 y0] p1 [x2 y2] p3]. unfold winding, merge_boxes, px, py; simpl.
  intros [-> ->]. by rewrite !Z.min_id, !Z.max_id.
Qed.

(** ** The nearby tests as inequalities *)

Lemma is_nearby_true a b xt yt ft :
  is_nearby a b xt yt ft = true <->
  Z.abs (px (c2 a) - px (c0 b)) < xt /\
  Z.abs (py (c0 a) - py (c0 b)) < yt /\
  Z.abs (py (c2 a) - py (c0 a) - (py (c2 b) - py (c0 b))) < ft.
Proof.
  unfold is_nearby. rewrite !andb_true_iff, !Z.ltb_lt. tauto.
Qed.

Lemma is_nearby_parag_true a b yt xt :
  is_nearby_parag a b yt xt = true <->
  Z.abs (py (c3 a) - py (c0 b)) < yt /\ Z.abs (px (c0 a) - px (c0 b)) < xt.
Proof. unfold is_nearby_parag. by rewrite andb_true_iff, !Z.ltb_lt. Qed.

Lemma is_nearby_nonpositive a b xt yt ft :
  xt <= 0 \/ yt <= 0 \/ ft <= 0 -> is_nearby a b xt yt ft = false.
Proof.
  intros H. apply not_true_is_false. rewrite is_nearby_true. lia.
Qed.

Lemma is_nearby_parag_nonpositive a b yt xt :
  yt <= 0 \/ xt <= 0 -> is_nearby_parag a b yt xt = false.
Proof.
  intros H. apply not_true_is_false. rewrite is_nearby_parag_true. lia.
Qed.

(** ** Moving everything by the same vector *)

Lemma merge_boxes_shift dx dy a b :
  merge_boxes (shift_box dx dy a) (shift_box dx dy b) = shift_box dx dy (merge_boxes a b).
Proof.
  unfold merge_boxes, shift_box, shift_point, px, py; simpl.
  by rewrite !Z.add_min_distr_r, !Z.add_max_distr_r.
Qed.

Lemma is_nearby_shift dx dy a b xt yt ft :
  is_nearby (shift_box dx dy a) (shift_box dx dy b) xt yt ft = is_nearby a b xt yt ft.
Proof.
  apply Bool.eq_iff_eq_true. rewrite !is_nearby_true.
  unfold shift_box, shift_point, px, py; simpl. lia.
Qed.

Lemma is_nearby_parag_shift dx dy a b yt xt :
  is_nearby_parag (shift_box dx dy a) (shift_box dx dy b) yt xt = is_nearby_parag a b yt xt.
Proof.
  apply Bool.eq_iff_eq_true. rewrite !is_nearby_parag_true.
  unfold shift_box, shift_point, px, py; simpl. lia.
Qed.

Lemma tuple_ltb_true_iff a b :
  tuple_ltb a b = true <-> a.1 < b.1 \/ (a.1 = b.1 /\ a.2 < b.2).
Proof.
  unfold tuple_ltb. by rewrite orb_true_iff, andb_true_iff, !Z.ltb_lt, Z.eqb_eq.
Qed.

Lemma sort_key_shift dx dy d e :
  tuple_ltb (sort_key (shift_det dx dy d)) (sort_key (shift_det dx dy e))
  = tuple_ltb (sort_key d) (sort_key e).
Proof.
  apply Bool.eq_iff_eq_true. rewrite !tuple_ltb_true_iff.
  unfold sort_key, shift_det, shift_box, shift_point, px, py; simpl. lia.
Qed.

Section sorting_mapped.
Context {A : Type} (key : A -> Z * Z) (f : A -> A).
Hypothesis order_kept :
  forall x y, tuple_ltb (key (f x)) (key (f y)) = tuple_ltb (key x) (key y).

Lemma insert_by_key_mapped x l :
  insert_by_key key (f x) (f <$> l) = f <$> insert_by_key key x l.
Proof.
  induction l as [|y l IH]; [reflexivity|]. rewrite fmap_cons. simpl.
  rewrite order_kept. destruct (tuple_ltb (key y) (key x)); [|reflexivity].
  by rewrite IH.
Qed.

Lemma sort_by_key_mapped l : sort_by_key key (f <$> l) = f <$> sort_by_key key l.
Proof.
  induction l as [|x l IH]; [reflexivity|]. rewrite fmap_cons. simpl.
  by rewrite IH, insert_by_key_mapped.
Qed.

End sorting_mapped.

Lemma absorb_shift dx dy g box text :
  absorb (shift_group dx dy g) (shift_box dx dy box) text
  = shift_group dx dy (absorb g box text).
Proof. unfold absorb, shift_group; simpl. by rewrite merge_boxes_shift. Qed.

Lemma nearby_line_shift dx dy xt yt ft g d :
  nearby_line xt yt ft (shift_group dx dy g) (shift_det dx dy d)
  <-> nearby_line xt yt ft g d.
Proof.
  unfold nearby_line, shift_group, shift_det, shift_box, shift_point, px, py; simpl. lia.
Qed.

Lemma group_lines_from_shift dx dy xt yt ft ds : forall current,
  group_lines_from xt yt ft (shift_group dx dy current) (shift_det dx dy <$> ds)
  = shift_group dx dy <$> group_lines_from xt yt ft current ds.
Proof.
  induction ds as [|d ds IH]; intros current; [reflexivity|].
  rewrite fmap_cons. simpl.
  destruct (decide (nearby_line xt yt ft (shift_group dx dy current) (shift_det dx dy d)))
    as [H|H]; destruct (decide (nearby_line xt yt ft current d)) as [H'|H'].
  - rewrite <- IH. f_equal. apply absorb_shift.
  - by apply nearby_line_shift in H.
  - exfalso. apply H. by apply nearby_line_shift.
  - rewrite fmap_cons. f_equal. apply (IH (first_two d)).
Qed.

Lemma group_text_boxes_shift dx dy ds xt yt ft :
  group_text_boxes (shift_det dx dy <$> ds) xt yt ft
  = shift_group dx dy <$> group_text_boxes ds xt yt ft.
Proof.
  rewrite !group_text_boxes_group_lines. unfold group_lines.
  rewrite (sort_by_key_mapped sort_key (shift_det dx dy) (sort_key_shift dx dy)).
  destruct (sort_by_key sort_key ds) as [|d ds']; [reflexivity|].
  rewrite fmap_cons. apply (group_lines_from_shift dx dy xt yt ft ds' (first_two d)).
Qed.

Lemma scan_boxes_shift dx dy yt xt (boxes : list Group) box1 text1 :
  scan_boxes yt xt (shift_group dx dy <$> boxes) (shift_box dx dy box1) text1
  = option_map (fmap (shift_group dx dy)) (scan_boxes yt xt boxes box1 text1).
Proof.
  induction boxes as [|[box2 text2] boxes IH]; [reflexivity|].
  rewrite fmap_cons. simpl. rewrite is_nearby_parag_shift.
  destruct (is_nearby_parag box2 box1 yt xt).
  - simpl. unfold shift_group at 3; simpl. by rewrite merge_boxes_shift.
  - rewrite IH. by destruct (scan_boxes yt xt boxes box1 text1).
Qed.

Lemma parag_step_shift dx dy yt xt boxes g :
  parag_step yt xt (shift_group dx dy <$> boxes) (shift_group dx dy g)
  = shift_group dx dy <$> parag_step yt xt boxes g.
Proof.
  destruct g as [box1 text1]. unfold parag_step.
  change (shift_group dx dy (box1, text1)) with (shift_box dx dy box1, text1).
  cbv beta iota. rewrite scan_boxes_shift.
  destruct (scan_boxes yt xt boxes box1 text1); simpl; [reflexivity|].
  by rewrite fmap_app.
Qed.

Lemma fold_parag_step_shift dx dy yt xt rest : forall boxes,
  fold_left (parag_step yt xt) (shift_group dx dy <$> rest) (shift_group dx dy <$> boxes)
  = shift_group dx dy <$> fold_left (parag_step yt xt) rest boxes.
Proof.
  induction rest as [|g rest IH]; intros boxes; [reflexivity|].
  rewrite fmap_cons. cbn [fold_left]. by rewrite parag_step_shift, IH.
Qed.

Lemma check_paragraph_shift dx dy gs yt xt :
  check_paragraph (shift_group dx dy <$> gs) yt xt
  = shift_result dx dy (check_paragraph gs yt xt).
Proof.
  destruct gs as [|first rest]; [reflexivity|]. rewrite fmap_cons.
  unfold check_paragraph, shift_result. f_equal.
  apply (fold_parag_step_shift dx dy yt xt rest [first]).
Qed.

(** ** How many groups come out *)

Lemma group_lines_from_length xt yt ft ds : forall current,
  (1 <= length (group_lines_from xt yt ft current ds) <= S (length ds))%nat.
Proof.
  induction ds as [|d ds IH]; intros current; simpl; [lia|].
  destruct (decide (nearby_line xt yt ft current d)).
  - specialize (IH (absorb current (det_box d) (det_text d))). lia.
  - specialize (IH (first_two d)). simpl. lia.
Qed.

Lemma sort_by_key_length {A : Type} (key : A -> Z * Z) l :
  length (sort_by_key key l) = length l.
Proof. apply Permutation_length, sort_by_key_perm. Qed.

Lemma group_text_boxes_length results xt yt ft :
  (length (group_text_boxes results xt yt ft) <= length results)%nat /\
  (results <> [] -> (1 <= length (group_text_boxes results xt yt ft))%nat).
Proof.
  rewrite group_text_boxes_group_lines. unfold group_lines.
  rewrite <- (sort_by_key_length sort_key results).
  destruct (sort_by_key sort_key results) as [|d ds] eqn:E.
  - split; [simpl; lia|]. intros Hne. exfalso. apply Hne.
    apply length_zero_iff_nil. rewrite <- (sort_by_key_length sort_key), E. reflexivity.
  - pose proof (group_lines_from_length xt yt ft ds (first_two d)). simpl. lia.
Qed.

Lemma place_line_length yt xt boxes g :
  (length boxes <= length (place_line yt xt boxes g) <= S (length boxes))%nat.
Proof.
  unfold place_line.
  destruct (list_find (fun p => nearby_paragraph yt xt p g) boxes) as [[i p]|].
  - rewrite length_insert. lia.
  - rewrite length_app. simpl. lia.
Qed.

Lemma fold_place_line_length yt xt rest : forall boxes,
  (length boxes <= length (fold_left (place_line yt xt) rest boxes)
   <= length boxes + length rest)%nat.
Proof.
  induction rest as [|g rest IH]; intros boxes; simpl; [lia|].
  specialize (IH (place_line yt xt boxes g)).
  pose proof (place_line_length yt xt boxes g). lia.
Qed.

(** ** Thresholds that nothing can meet *)

Lemma group_lines_from_nonpositive xt yt ft ds : forall current,
  xt <= 0 \/ yt <= 0 \/ ft <= 0 ->
  group_lines_from xt yt ft current ds = current :: (first_two <$> ds).
Proof.
  intros current H. revert current.
  induction ds as [|d ds IH]; intros current; [reflexivity|]. simpl.
  destruct (decide (nearby_line xt yt ft current d)) as [Hn|_].
  - exfalso. unfold nearby_line in Hn. lia.
  - by rewrite IH.
Qed.

Lemma scan_boxes_nonpositive yt xt boxes box1 text1 :
  yt <= 0 \/ xt <= 0 -> scan_boxes yt xt boxes box1 text1 = None.
Proof.
  intros H. induction boxes as [|[box2 text2] boxes IH]; [reflexivity|]. simpl.
  by rewrite is_nearby_parag_nonpositive, IH.
Qed.

Lemma fold_parag_step_nonpositive yt xt rest : forall boxes,
  yt <= 0 \/ xt <= 0 -> fold_left (parag_step yt xt) rest boxes = boxes ++ rest.
Proof.
  intros boxes H. revert boxes.
  induction rest as [|[box1 text1] rest IH]; intros boxes; simpl.
  - by rewrite app_nil_r.
  - rewrite scan_boxes_nonpositive by done. rewrite IH. by rewrite <- app_assoc.
Qed.

(** ** Lines as runs of the sorted detections *)

Lemma key_le_top d e : key_le sort_key d e -> py (c0 (det_box d)) <= py (c0 (det_box e)).
Proof. unfold key_le, tuple_le, sort_key; simpl. lia. Qed.

Lemma group_lines_from_band xt yt ft ds : forall d0 rest current,
  current = fold_left (fun acc e => absorb acc (det_box e) (det_text e)) rest (first_two d0) ->
  py (c0 current.1) = py (c0 (det_box d0)) ->
  in_band yt (d0 :: rest) ->
  Forall (fun e => py (c0 (det_box d0)) <= py (c0 (det_box e))) ds ->
  StronglySorted (key_le sort_key) ds ->
  exists runs,
    concat runs = (d0 :: rest) ++ ds /\
    Forall2 group_of_run runs (group_lines_from xt yt ft current ds) /\
    Forall (in_band yt) runs.
Proof.
  induction ds as [|d ds IH]; intros d0 rest current Hcur Htop Hband Hge Hsorted.
  - exists [d0 :: rest]. simpl. rewrite !app_nil_r. split_and!; [done| |by repeat constructor].
    by repeat constructor.
  - apply Forall_cons in Hge as [Hd Hge].
    apply StronglySorted_inv in Hsorted as [Hsorted Hdle]. simpl.
    destruct (decide (nearby_line xt yt ft current d)) as [Hn|Hn].
    + destruct (IH d0 (rest ++ [d]) (absorb current (det_box d) (det_text d)))
        as (runs & Hc & Hg & Hb); try done.
      * by rewrite fold_left_app, <- Hcur.
      * unfold absorb, merge_boxes, px, py; simpl. unfold py in Htop, Hd. lia.
      * simpl. apply Forall_app. split; [exact Hband|]. apply Forall_singleton.
        destruct Hn as (_ & Hy & _). lia.
      * exists runs. split_and!; [|done|done]. rewrite Hc. simpl. by rewrite <- app_assoc.
    + destruct (IH d [] (first_two d)) as (runs & Hc & Hg & Hb); try done.
      * simpl. constructor.
      * eapply Forall_impl; [exact Hdle|]. intros e. apply key_le_top.
      * exists ((d0 :: rest) :: runs). split_and!.
        -- simpl. by rewrite Hc.
        -- constructor; [exact Hcur|exact Hg].
        -- by constructor.
Qed.

Lemma group_text_boxes_bands results xt yt ft :
  exists runs,
    concat runs = sort_by_key sort_key results /\
    Forall2 group_of_run runs (group_text_boxes results xt yt ft) /\
    Forall (in_band yt) runs.
Proof.
  rewrite group_text_boxes_group_lines. unfold group_lines.
  pose proof (sort_by_key_sorted sort_key results) as Hsorted.
  destruct (sort_by_key sort_key results) as [|d ds].
  - exists []. by split_and!; constructor.
  - apply StronglySorted_inv in Hsorted as [Hsorted Hdle].
    apply (group_lines_from_band xt yt ft ds d [] (first_two d)); try done.
    + simpl. constructor.
    + eapply Forall_impl; [exact Hdle|]. intros e. apply key_le_top.
Qed.

(** ** Input order *)

Lemma tuple_le_antisym a b : tuple_le a b -> tuple_le b a -> a = b.
Proof. destruct a, b. unfold tuple_le; simpl. intros. f_equal; lia. Qed.

Lemma NoDup_fmap_elem_inj {A B : Type} (f : A -> B) l x y :
  NoDup (f <$> l) -> x ∈ l -> y ∈ l -> f x = f y -> x = y.
Proof.
  induction l as [|a l IH]; intros Hnd Hx Hy Hxy; [by apply not_elem_of_nil in Hx|].
  rewrite fmap_cons in Hnd. apply NoDup_cons in Hnd as [Ha Hnd].
  apply elem_of_cons in Hx as [->|Hx]; apply elem_of_cons in Hy as [->|Hy].
  - reflexivity.
  - exfalso. apply Ha. rewrite Hxy. by apply list_elem_of_fmap_2.
  - exfalso. apply Ha. rewrite <- Hxy. by apply list_elem_of_fmap_2.
  - by apply IH.
Qed.

Lemma sorted_perm_unique {A : Type} (key : A -> Z * Z) l : forall l',
  StronglySorted (key_le key) l -> StronglySorted (key_le key) l' ->
  Permutation l l' -> NoDup (key <$> l) -> l = l'.
Proof.
  induction l as [|x t IH]; intros l' Hs Hs' Hperm Hnd.
  - by apply Permutation_nil in Hperm.
  - destruct l' as [|y t']; [by apply Permutation_sym, Permutation_nil in Hperm|].
    assert (x = y) as ->.
    { destruct (decide (key x = key y)) as [Hk|Hk].
      - apply (NoDup_fmap_elem_inj key (x :: t)); [done|apply list_elem_of_here| |done].
        rewrite Hperm. apply list_elem_of_here.
      - exfalso. apply Hk. apply tuple_le_antisym.
        + apply StronglySorted_inv in Hs as [_ Hx].
          assert (y ∈ x :: t) as [->|Hy]%elem_of_cons
            by (rewrite Hperm; apply list_elem_of_here); [done|].
          rewrite Forall_forall in Hx. by apply Hx.
        + apply StronglySorted_inv in Hs' as [_ Hy].
          assert (x ∈ y :: t') as [->|Hx]%elem_of_cons
            by (rewrite <- Hperm; apply list_elem_of_here); [done|].
          rewrite Forall_forall in Hy. by apply Hy. }
    f_equal. apply IH.
    + by apply StronglySorted_inv in Hs as [? _].
    + by apply StronglySorted_inv in Hs' as [? _].
    + by apply Permutation_cons_inv in Hperm.
    + rewrite fmap_cons in Hnd. by apply NoDup_cons in Hnd as [_ ?].
Qed.

Lemma sort_by_key_perm_invariant {A : Type} (key : A -> Z * Z) l l' :
  Permutation l l' -> NoDup (key <$> l) -> sort_by_key key l = sort_by_key key l'.
Proof.
  intros Hperm Hnd. apply (sorted_perm_unique key).
  - apply sort_by_key_sorted.
  - apply sort_by_key_sorted.
  - by rewrite !sort_by_key_perm.
  - by rewrite (sort_by_key_perm key l).
Qed.

(** ** Every box stays covered *)

Lemma covers_app_l gs hs b : covers gs b -> covers (gs ++ hs) b.
Proof. intros (g & Hg & Hle). exists g. split; [|done]. apply elem_of_app. by left. Qed.

Lemma covers_app_r gs hs b : covers hs b -> covers (gs ++ hs) b.
Proof. intros (g & Hg & Hle). exists g. split; [|done]. apply elem_of_app. by right. Qed.

Lemma covers_here g gs b : ext_le b g.1 -> covers (g :: gs) b.
Proof. intros H. exists g. split; [apply list_elem_of_here|done]. Qed.

Lemma covers_grow pre (p p' : Group) post b :
  ext_le p.1 p'.1 -> covers (pre ++ p :: post) b -> covers (pre ++ p' :: post) b.
Proof.
  intros Hpp (g & Hg & Hle).
  apply elem_of_app in Hg as [Hg|[->|Hg]%elem_of_cons].
  - apply covers_app_l. by exists g.
  - apply covers_app_r, covers_here. by eapply ext_le_trans.
  - apply covers_app_r. exists g. split; [by apply list_elem_of_further|done].
Qed.

Lemma line_step_covers xt yt ft gs d :
  covers (line_step xt yt ft gs d) (det_box d) /\
  (forall b, covers gs b -> covers (line_step xt yt ft gs d) b).
Proof.
  destruct gs as [|g gs _] using rev_ind.
  - rewrite line_step_nil. split; [apply covers_here, ext_le_refl|].
    by intros b (g & Hg%not_elem_of_nil & _).
  - rewrite line_step_snoc. destruct (decide (nearby_line xt yt ft g d)).
    + split.
      * apply covers_app_r, covers_here. apply ext_le_merge_r.
      * intros b. apply (covers_grow gs g _ []). apply ext_le_merge_l.
    + split.
      * apply covers_app_r. exists (first_two d).
        split; [apply list_elem_of_further, list_elem_of_here|apply ext_le_refl].
      * intros b Hb. change (gs ++ [g; first_two d]) with (gs ++ [g] ++ [first_two d]).
        rewrite app_assoc. by apply covers_app_l.
Qed.

Lemma fold_line_step_covers xt yt ft ds : forall gs,
  (forall b, covers gs b -> covers (fold_left (line_step xt yt ft) ds gs) b) /\
  (forall d, d ∈ ds -> covers (fold_left (line_step xt yt ft) ds gs) (det_box d)).
Proof.
  induction ds as [|d ds IH]; intros gs; simpl.
  - split; [done|]. by intros d Hd%not_elem_of_nil.
  - destruct (IH (line_step xt yt ft gs d)) as [IH1 IH2].
    destruct (line_step_covers xt yt ft gs d) as [Hd Hkeep]. split.
    + intros b Hb. by apply IH1, Hkeep.
    + intros e [->|He]%elem_of_cons; [by apply IH1|by apply IH2].
Qed.

Lemma group_text_boxes_covers results xt yt ft d :
  d ∈ results -> covers (group_text_boxes results xt yt ft) (det_box d).
Proof.
  intros Hd. unfold group_text_boxes.
  apply (fold_line_step_covers xt yt ft (sort_by_key sort_key results) []).
  by rewrite (sort_by_key_perm sort_key results).
Qed.

Lemma place_line_covers yt xt boxes g :
  covers (place_line yt xt boxes g) g.1 /\
  (forall b, covers boxes b -> covers (place_line yt xt boxes g) b).
Proof.
  destruct (first_nearby_split yt xt boxes g) as [H|(pre & p & post & -> & Hpre & Hp)].
  - rewrite place_line_none by done. split.
    + apply covers_app_r, covers_here, ext_le_refl.
    + intros b. apply covers_app_l.
  - rewrite place_line_first by done. split.
    + apply covers_app_r, covers_here. apply ext_le_merge_r.
    + intros b. apply covers_grow. apply ext_le_merge_l.
Qed.

Lemma fold_place_line_covers yt xt rest : forall boxes,
  (forall b, covers boxes b -> covers (fold_left (place_line yt xt) rest boxes) b) /\
  (forall g, g ∈ rest -> covers (fold_left (place_line yt xt) rest boxes) g.1).
Proof.
  induction rest as [|g rest IH]; intros boxes; simpl.
  - split; [done|]. by intros g Hg%not_elem_of_nil.
  - destruct (IH (place_line yt xt boxes g)) as [IH1 IH2].
    destruct (place_line_covers yt xt boxes g) as [Hg Hkeep]. split.
    + intros b Hb. by apply IH1, Hkeep.
    + intros h [->|Hh]%elem_of_cons; [by apply IH1|by apply IH2].
Qed.

Lemma check_paragraph_covers gs yt xt out g :
  check_paragraph gs yt xt = inr out -> g ∈ gs -> covers out g.1.
Proof.
  destruct gs as [|first rest]; [done|]. simpl. intros [= <-].
  rewrite fold_parag_step_place_line.
  destruct (fold_place_line_covers yt xt rest [first]) as [H1 H2].
  intros [->|Hg]%elem_of_cons; [|by apply H2].
  apply H1, covers_here, ext_le_refl.
Qed.

Lemma covers_trans gs hs b :
  covers gs b -> (forall g, g ∈ gs -> covers hs g.1) -> covers hs b.
Proof.
  intros (g & Hg & Hle) H. destruct (H g Hg) as (h & Hh & Hle').
  exists h. split; [done|]. by eapply ext_le_trans.
Qed.

(** ** Words through the paragraph pass *)

Lemma place_line_words yt xt (boxes : list Group) g :
  Permutation (flat_map words (place_line yt xt boxes g).*2)
              (flat_map words boxes.*2 ++ words g.2).
Proof.
  destruct (first_nearby_split yt xt boxes g) as [H|(pre & p & post & -> & Hpre & Hp)].
  - rewrite place_line_none by done. rewrite fmap_app, flat_map_app. simpl.
    by rewrite app_nil_r.
  - rewrite place_line_first by done.
    rewrite !fmap_app. csimpl. rewrite !flat_map_app. simpl.
    rewrite words_space, <- !app_assoc.
    do 2 apply Permutation_app_head. apply Permutation_app_comm.
Qed.

Lemma fold_place_line_words yt xt (rest : list Group) : forall boxes : list Group,
  Permutation (flat_map words (fold_left (place_line yt xt) rest boxes).*2)
              (flat_map words boxes.*2 ++ flat_map words rest.*2).
Proof.
  induction rest as [|g rest IH]; intros boxes; simpl.
  - by rewrite app_nil_r.
  - rewrite IH, place_line_words. csimpl. by rewrite <- app_assoc.
Qed.

Lemma check_paragraph_words (gs : list Group) yt xt out :
  check_paragraph gs yt xt = inr out ->
  Permutation (flat_map words out.*2) (flat_map words gs.*2).
Proof.
  destruct gs as [|first rest]; [done|]. simpl. intros [= <-].
  rewrite fold_parag_step_place_line, fold_place_line_words. csimpl.
  by rewrite app_nil_r.
Qed.

(** ** What the caller's list shows after [check_paragraph] *)

Lemma check_paragraph_caller_view (s0 : Store.store) gt first rest (gs : list Group) yt xt :
  s0 !! gt = Some (Store.OList (first :: rest)) ->
  Store.val_groups s0 gt = Some gs ->
  first ∉ rest ->
  exists s1 bl hd tl,
    Store.check_paragraph gt yt xt s0 = (inr (length s0), s1) /\
    check_paragraph gs yt xt = inr (hd :: tl) /\
    s1 !! length s0 = Some (Store.OList (first :: bl)) /\
    Store.val_groups s1 (length s0) = Some (hd :: tl) /\
    Store.val_group s1 first = Some hd /\
    Store.val_groups s1 gt = Some (hd :: drop 1 gs).
Proof.
  intros Hgt Hgs Hnotin.
  destruct (check_paragraph_effect s0 gt first rest gs yt xt Hgt Hgs)
    as (s1 & bl & out & Hrun & Hkeep & Hlist & _ & _ & _ & Hnbf & Hout & Hpure).
  pose proof Hout as (items & Hlist' & Hvals)%val_groups_Some.
  pose proof (lookup_same_obj _ _ _ _ Hlist Hlist') as [= <-].
  apply Forall2_cons_inv_l in Hvals as (hd & tl & Hhd & Htl & ->).
  pose proof Hgs as (items0 & Hgt' & Hvals0)%val_groups_Some.
  pose proof (lookup_same_obj _ _ _ _ Hgt Hgt') as [= <-].
  apply Forall2_cons_inv_l in Hvals0 as (fv & gvs0 & Hfv & Hrest & ->).
  pose proof Hfv as (fbl & Hf & _)%val_group_Some.
  exists s1, bl, hd, tl. split_and!; try done.
  - by apply Hpure.
  - apply val_groups_Some. exists (first :: rest). split.
    + apply Hkeep; [|done]. intros ->. obj_clash.
    + constructor; [exact Hhd|]. simpl. rewrite drop_0.
      eapply Forall2_impl_elem; [exact Hrest|]. intros l v Hin Hl.
      eapply (val_group_differs1 first); [|exact Hnbf| |exact Hl].
      * intros k o Hk. apply Hkeep. intros ->. apply Hk, list_elem_of_here.
      * intros ->. exact (Hnotin Hin).
Qed.

(** * The claims *)

(** C1. On the empty list [group_text_boxes] returns the empty list, but
    [check_paragraph] applied to that empty list does not return: its first
    statement reads [grouped_texts[0]] and raises [IndexError]. *)
Theorem check_paragraph_empty_raises :
  (forall xt yt ft, group_text_boxes [] xt yt ft = []) /\
  (forall yt xt, check_paragraph [] yt xt = inl IndexError) /\
  pipeline [] = inl IndexError.
Proof. split_and!; reflexivity. Qed.

(** C2, as stated, fails, in two ways.  With two overlapping boxes and a
    click in the overlap the handler copies both texts in turn and the
    clipboard is left with the second one, not the first (whatever
    [str.lower] does beyond ASCII).  And the handler compares the point
    with the corners truncated by [int]: a box with corner 0 at
    (10.7, 10.7) does not contain the point (10, 10), yet a click there
    copies its text. *)
Lemma click_selects_last_hit_on_truncated_corners :
  ~ (exists lower, lowers_ascii lower /\
       first_hit_selected lower
         (number_group <$>
            [ (mkBox (0, 0) (10, 0) (10, 10) (0, 10), "First");
              (mkBox (5, 5) (15, 5) (15, 15) (5, 15), "Second") ]) 7 7) /\
  ~ (exists lower,
       first_hit_selected lower
         [ (mkQBox (107 # 10, 107 # 10) (502 # 10, 107 # 10)
                   (502 # 10, 309 # 10) (107 # 10, 309 # 10), "float") ] 10 10).
Proof.
  split.
  - intros (lower & Hlow & H). specialize (H (mkWorld [] [])).
    vm_compute in H. rewrite (Hlow "First"), (Hlow "Second") in H by reflexivity.
    discriminate H.
  - intros (lower & H). specialize (H (mkWorld [] [])).
    vm_compute in H. discriminate H.
Qed.

(** C2, amended.  On a left-button click at [(x, y)] the handler visits the
    groups in list order and, for every group with
    [int(box[0][0]) <= x <= int(box[2][0])] and
    [int(box[0][1]) <= y <= int(box[2][1])], copies that group's text
    lowercased and prints it; there is no [break], so the clipboard is left
    with the text of the last such group.  The first new copy is the first
    such group's, so when at most one group passes the test the clipboard
    holds the first one's lowercased text; when none does, nothing is
    copied or printed.  Other events change nothing.  For a box with
    integer corners the test is containment with inclusive bounds on all
    four sides; for corners that are not negative it is
    [box[0] - 1 < (x, y) <= box[2]] coordinate by coordinate, which every
    point contained in the box passes. *)
Theorem mouse_callback_copies_each_hit :
  forall (lower : string -> string) (Img : Type) (groups : list QGroup)
         (x y flags : Z) (img : Img) (w : world),
    let hits := filter (box_hit x y) groups in
    let w' := mouse_callback lower EVENT_LBUTTONDOWN x y flags (groups, img) w in
    copied w' = copied w ++ ((fun g => lower g.2) <$> hits) /\
    printed w' = printed w ++ ((fun g => "Copied text: " +:+ lower g.2) <$> hits) /\
    clipboard w' =
      match last hits with Some g => Some (lower g.2) | None => clipboard w end /\
    head hits = snd <$> list_find (box_hit x y) groups /\
    ((length hits <= 1)%nat ->
       clipboard w' = match list_find (box_hit x y) groups with
                      | Some (_, g) => Some (lower g.2)
                      | None => clipboard w
                      end) /\
    (hits = [] -> w' = w) /\
    (forall event, event <> EVENT_LBUTTONDOWN ->
       mouse_callback lower event x y flags (groups, img) w = w) /\
    (forall g : Group,
       box_hit x y (number_group g) <->
       px (c0 g.1) <= x <= px (c2 g.1) /\ py (c0 g.1) <= y <= py (c2 g.1)) /\
    (forall g : QGroup,
       in_image g ->
       (box_hit x y g <->
        (qx (q0 g.1) < inject_Z (x + 1))%Q /\ (inject_Z x <= qx (q2 g.1))%Q /\
        (qy (q0 g.1) < inject_Z (y + 1))%Q /\ (inject_Z y <= qy (q2 g.1))%Q) /\
       (contains_point x y g -> box_hit x y g)).
Proof.
  intros lower Img groups x y flags img w hits w'.
  assert (w' = mkWorld (copied w ++ ((fun g => lower g.2) <$> hits))
                 (printed w ++ ((fun g => "Copied text: " +:+ lower g.2) <$> hits)))
    as Hw' by (subst w' hits; unfold mouse_callback; simpl; apply click_loop_hits).
  assert (clipboard w' =
      match last hits with Some g => Some (lower g.2) | None => clipboard w end) as Hclip.
  { rewrite Hw'. unfold clipboard; simpl. rewrite last_app, fmap_last.
    unfold QGroup in *. destruct (last hits); reflexivity. }
  assert (head hits = snd <$> list_find (box_hit x y) groups) as Hhead
    by apply head_filter_list_find.
  split_and!; try done.
  - by rewrite Hw'.
  - by rewrite Hw'.
  - intros Hlen. rewrite Hclip, (short_list_head_last hits Hlen), Hhead.
    by destruct (list_find (box_hit x y) groups) as [[i g]|].
  - intros Hnil. rewrite Hw', Hnil. simpl. rewrite !app_nil_r. by destruct w.
  - intros event Hev. unfold mouse_callback.
    apply Z.eqb_neq in Hev. by rewrite Hev.
  - intros g. apply box_hit_number_group.
  - intros g Him. split; [by apply box_hit_in_image|by apply contains_point_box_hit].
Qed.

Lemma mouse_callback_copies_each_hit_witness :
  let groups : list QGroup :=
    [ (mkQBox (0 # 1, 0 # 1) (10 # 1, 0 # 1) (10 # 1, 10 # 1) (0 # 1, 10 # 1), "First");
      (mkQBox (410 # 20, 1 # 2) (30 # 1, 1 # 2) (611 # 20, 21 # 2) (20 # 1, 10 # 1),
       "Second") ] in
  clipboard (mouse_callback ascii_lower EVENT_LBUTTONDOWN 25 5 0 (groups, tt) (mkWorld [] []))
  = Some "second"
  /\ mouse_callback ascii_lower EVENT_LBUTTONDOWN 50 50 0 (groups, tt) (mkWorld ["kept"] [])
     = mkWorld ["kept"] []
  /\ mouse_callback ascii_lower 0 25 5 0 (groups, tt) (mkWorld ["kept"] [])
     = mkWorld ["kept"] []
  /\ box_hit 20 0 (mkQBox (410 # 20, 1 # 2) (30 # 1, 1 # 2) (611 # 20, 21 # 2) (20 # 1, 10 # 1), "Second").
Proof.
  intros groups. split_and!.
  - destruct (mouse_callback_copies_each_hit ascii_lower unit groups 25 5 0 tt (mkWorld [] []))
      as (_ & _ & _ & _ & H & _).
    rewrite H; [reflexivity|]. vm_compute. lia.
  - destruct (mouse_callback_copies_each_hit ascii_lower unit groups 50 50 0 tt
                (mkWorld ["kept"] []))
      as (_ & _ & _ & _ & _ & H & _).
    apply H. reflexivity.
  - destruct (mouse_callback_copies_each_hit ascii_lower unit groups 25 5 0 tt
                (mkWorld ["kept"] []))
      as (_ & _ & _ & _ & _ & _ & H & _).
    apply H. unfold EVENT_LBUTTONDOWN. lia.
  - destruct (mouse_callback_copies_each_hit ascii_lower unit groups 20 0 0 tt
                (mkWorld [] []))
      as (_ & _ & _ & _ & _ & _ & _ & _ & H).
    destruct (H (mkQBox (410 # 20, 1 # 2) (30 # 1, 1 # 2) (611 # 20, 21 # 2)
                        (20 # 1, 10 # 1), "Second")) as [Hiff _].
    + unfold in_image, qx, qy, Qle; simpl. lia.
    + apply Hiff. unfold qx, qy, Qle, Qlt; simpl. lia.
Defined.

(** C6, as stated, fails: [merge_boxes] reads corners 0 and 2 only, so a
    corner 1 that lies outside the extent of corners 0/2 is not covered. *)
Lemma merge_boxes_misses_stray_corner :
  let a := mkBox (0, 0) (50, 0) (10, 10) (0, 10) in
  let b := mkBox (0, 0) (10, 0) (10, 10) (0, 10) in
  ~ contains (merge_boxes a b) a.
Proof. unfold_geom. lia. Qed.

(** C6, amended.  When each of [a] and [b] has its four corners within the
    extent spanned by its own corners 0 and 2 (as every axis-aligned box in
    the fixed winding order with [x_min <= x_max] and [y_min <= y_max]
    has), every corner of [a] and of [b] lies within or on the boundary of
    [merge_boxes a b]. *)
Theorem merge_boxes_contains :
  forall a b : Box,
    own_extent a -> own_extent b ->
    contains (merge_boxes a b) a /\ contains (merge_boxes a b) b.
Proof. intros a b. unfold_geom. lia. Qed.

Lemma merge_boxes_contains_witness :
  let a := mkBox (0, 0) (40, 0) (40, 20) (0, 20) in
  let b := mkBox (45, 5) (80, 5) (80, 30) (45, 30) in
  own_extent a /\ own_extent b /\
  contains (merge_boxes a b) a /\ contains (merge_boxes a b) b.
Proof.
  intros a b.
  assert (own_extent a) as Ha by (unfold_geom; lia).
  assert (own_extent b) as Hb by (unfold_geom; lia).
  split; [exact Ha|]. split; [exact Hb|].
  apply (merge_boxes_contains a b Ha Hb).
Defined.

(** C7. [merge_boxes] is commutative and associative, and folding it over
    a list of boxes gives the same box for every order of the list. *)
Theorem merge_boxes_order_independent :
  (forall a b, merge_boxes a b = merge_boxes b a) /\
  (forall a b c, merge_boxes (merge_boxes a b) c = merge_boxes a (merge_boxes b c)) /\
  (forall a l l', Permutation l l' ->
     fold_left merge_boxes l a = fold_left merge_boxes l' a).
Proof.
  split_and!.
  - apply merge_boxes_comm.
  - apply merge_boxes_assoc.
  - intros a l l' H. by apply fold_merge_boxes_perm.
Qed.

Lemma merge_boxes_order_independent_witness :
  let a := mkBox (0, 0) (40, 0) (40, 20) (0, 20) in
  let b := mkBox (45, 5) (80, 5) (80, 30) (45, 30) in
  let c := mkBox (-3, 7) (9, 7) (9, 50) (-3, 50) in
  fold_left merge_boxes [b; c] a = fold_left merge_boxes [c; b] a.
Proof.
  intros a b c.
  destruct merge_boxes_order_independent as (_ & _ & H).
  apply (H a [b; c] [c; b]). apply perm_swap.
Defined.

(** C8. The texts of the groups [group_text_boxes] returns are the texts
    of consecutive non-empty runs of the sorted detections, each run joined
    by single spaces in order; the runs together are the sorted input.  So
    the words of the output texts are the words of the input texts, each
    occurring as often as in the input, and their number is unchanged. *)
Theorem group_text_boxes_keeps_every_word :
  forall (results : list detection) (xt yt ft : Z),
    let out := group_text_boxes results xt yt ft in
    (exists runs, concat runs = sort_by_key sort_key results /\
       Forall (fun r => r <> []) runs /\ out.*2 = join_texts <$> runs) /\
    Permutation (flat_map words out.*2)
                (flat_map (fun d => words (det_text d)) results) /\
    length (flat_map words out.*2)
    = length (flat_map (fun d => words (det_text d)) results).
Proof.
  intros results xt yt ft out.
  assert (Permutation (flat_map words out.*2)
            (flat_map (fun d => words (det_text d)) results)) as HP.
  { subst out. rewrite group_text_boxes_words.
    apply Permutation_flat_map, sort_by_key_perm. }
  split_and!.
  - apply group_text_boxes_runs.
  - exact HP.
  - by apply Permutation_length.
Qed.

(** C4. [group_text_boxes] walks the detections in the order of a stable
    sort by (top-left y, top-left x).  The first detection starts a group;
    every later one is merged into the last group (text appended after a
    space, box replaced by the merged box) exactly when
    [|last.xmax - d.xmin| < x_threshold], [|last.ymin - d.ymin| < y_threshold]
    and [|height last - height d| < font_threshold], and starts a new group
    otherwise.  Two detections at the same y spanning x = 0..40 and
    x = 45..80, both of height 20, with texts "cafe" and "latte", give under
    the defaults (50, 90, 10) the single group "cafe latte" spanning
    x = 0..80, in whichever order they are passed. *)
Theorem group_text_boxes_sorted_greedy :
  forall (results : list detection) (xt yt ft : Z),
    Permutation (sort_by_key sort_key results) results /\
    StronglySorted (key_le sort_key) (sort_by_key sort_key results) /\
    group_text_boxes results xt yt ft
      = fold_left (line_step xt yt ft) (sort_by_key sort_key results) [] /\
    (forall d, line_step xt yt ft [] d = [first_two d]) /\
    (forall gs g d,
       line_step xt yt ft (gs ++ [g]) d =
       if decide (nearby_line xt yt ft g d)
       then gs ++ [absorb g (det_box d) (det_text d)]
       else gs ++ [g; first_two d]) /\
    group_text_boxes results xt yt ft = group_lines results xt yt ft /\
    (forall (y : Z) (ca cb : Q),
       let a := mkDet (mkBox (0, y) (40, y) (40, y + 20) (0, y + 20)) "cafe" ca in
       let b := mkDet (mkBox (45, y) (80, y) (80, y + 20) (45, y + 20)) "latte" cb in
       let merged : Group := (mkBox (0, y) (80, y) (80, y + 20) (0, y + 20), "cafe latte") in
       group_text_boxes [a; b] x_threshold_default y_threshold_default
                        font_threshold_default = [merged] /\
       group_text_boxes [b; a] x_threshold_default y_threshold_default
                        font_threshold_default = [merged]).
Proof.
  intros results xt yt ft. split_and!.
  - apply sort_by_key_perm.
  - apply sort_by_key_sorted.
  - reflexivity.
  - apply line_step_nil.
  - apply line_step_snoc.
  - apply group_text_boxes_group_lines.
  - intros y ca cb a b merged.
    assert (sort_by_key sort_key [a; b] = [a; b] /\ sort_by_key sort_key [b; a] = [a; b]) as [Hab Hba].
    { unfold sort_by_key, tuple_ltb; simpl.
      unfold tuple_ltb; simpl. rewrite Z.ltb_irrefl, Z.eqb_refl. by simpl. }
    assert (group_lines_from x_threshold_default y_threshold_default font_threshold_default
              (first_two a) [b] = [merged]) as Hrun.
    { simpl. destruct (decide _) as [_|Hn].
      - unfold absorb, merge_boxes, merged, px, py; simpl.
        by rewrite Z.min_id, Z.max_id.
      - exfalso. apply Hn. unfold nearby_line, x_threshold_default,
          y_threshold_default, font_threshold_default, px, py; simpl. lia. }
    rewrite !group_text_boxes_group_lines. unfold group_lines.
    by rewrite Hab, Hba.
Qed.

(** C5. [check_paragraph] on a non-empty list starts from the first line
    group alone and places every later group [g] in turn: the first
    paragraph [p] in list order with [|p.bottom_edge_y - g.top_edge_y| <
    y_threshold] and [|p.left_edge_x - g.left_edge_x| < x_threshold] absorbs
    it (text appended after a space, box replaced by the merged box), and
    [g] is appended as a new paragraph when there is none.  The defaults
    are [y_threshold = 5], [x_threshold = 47]; two line groups with left
    edges at x = 10 and x = 12 lying 3 pixels apart vertically become one
    paragraph. *)
Theorem check_paragraph_first_match :
  forall (yt xt : Z),
    (forall first rest,
       check_paragraph (first :: rest) yt xt
       = inr (fold_left (place_line yt xt) rest [first])) /\
    (forall p g : Group,
       is_nearby_parag p.1 g.1 yt xt = true <-> nearby_paragraph yt xt p g) /\
    (forall pre p post g,
       Forall (fun q => ~ nearby_paragraph yt xt q g) pre ->
       nearby_paragraph yt xt p g ->
       parag_step yt xt (pre ++ p :: post) g = pre ++ absorb p g.1 g.2 :: post) /\
    (forall boxes g,
       Forall (fun q => ~ nearby_paragraph yt xt q g) boxes ->
       parag_step yt xt boxes g = boxes ++ [g]) /\
    parag_y_threshold_default = 5 /\ parag_x_threshold_default = 47 /\
    (forall p g : Group,
       px (c0 p.1) = 10 -> px (c0 g.1) = 12 ->
       Z.abs (py (c3 p.1) - py (c0 g.1)) = 3 ->
       check_paragraph [p; g] parag_y_threshold_default parag_x_threshold_default
       = inr [absorb p g.1 g.2]).
Proof.
  intros yt xt. split_and!.
  - intros first rest. simpl. by rewrite fold_parag_step_place_line.
  - intros p g. rewrite is_nearby_parag_spec. apply bool_decide_eq_true.
  - intros pre p post g Hpre Hp. rewrite parag_step_place_line.
    by apply place_line_first.
  - intros boxes g Hb. rewrite parag_step_place_line. by apply place_line_none.
  - reflexivity.
  - reflexivity.
  - intros p g Hp Hg Hy. simpl. f_equal. rewrite parag_step_place_line.
    apply (place_line_first _ _ [] p [] g); [constructor|].
    unfold nearby_paragraph, parag_y_threshold_default, parag_x_threshold_default.
    simpl. lia.
Qed.

Lemma check_paragraph_first_match_witness :
  let p : Group := (mkBox (10, 0) (100, 0) (100, 20) (10, 20), "first line") in
  let q : Group := (mkBox (300, 0) (400, 0) (400, 20) (300, 20), "aside") in
  let g : Group := (mkBox (12, 23) (90, 23) (90, 43) (12, 43), "second line") in
  parag_step 5 47 [q; p] g = [q; absorb p g.1 g.2] /\
  parag_step 5 47 [q] g = [q; g] /\
  check_paragraph [p; g] parag_y_threshold_default parag_x_threshold_default
  = inr [absorb p g.1 g.2].
Proof.
  intros p q g.
  destruct (check_paragraph_first_match 5 47) as (_ & _ & Hfirst & Hnone & _ & _ & Hsc).
  assert (~ nearby_paragraph 5 47 q g) as Hq
    by (unfold nearby_paragraph, px, py; simpl; lia).
  assert (nearby_paragraph 5 47 p g) as Hp
    by (unfold nearby_paragraph, px, py; simpl; lia).
  split_and!.
  - apply (Hfirst [q] p [] g); [by constructor|exact Hp].
  - apply (Hnone [q] g). by constructor.
  - apply (Hsc p g); reflexivity.
Defined.

(** C10, as stated, fails in its last part: a group that was never merged
    holds the box of its detection as the detector gave it, corners 1 and 3
    included, so it need not be an axis-aligned rectangle. *)
Lemma unmerged_group_keeps_detector_corners :
  let b := mkBox (0, 0) (7, 3) (10, 10) (1, 9) in
  let results := [mkDet b "a" 1] in
  Forall (fun d => wf02 (det_box d)) results /\
  pipeline results = inr [(b, "a")] /\
  ~ rect b.
Proof.
  intros b results. split_and!.
  - constructor; [|constructor]. unfold_geom. lia.
  - reflexivity.
  - intros [_ [H _]]. discriminate H.
Qed.

(** C10, amended.  [merge_boxes] returns a box whose corners 1 and 3 are
    recomputed from the merged extent ([corner1 = (x_max, y_min)],
    [corner3 = (x_min, y_max)]) and reads only corners 0 and 2 of its
    arguments; when both arguments satisfy [x_min <= x_max] and
    [y_min <= y_max] on corners 0/2 the result is a well-formed axis-aligned
    rectangle.  When every detection satisfies that invariant, every box
    held by a group returned by [group_text_boxes] and by [check_paragraph]
    after it satisfies the invariant too, and is a well-formed rectangle in
    the fixed winding order unless the group was never merged, in which
    case it is the detection's box and text unchanged. *)
Theorem merge_boxes_rect_and_held_boxes :
  (forall a b,
     c1 (merge_boxes a b) = (px (c2 (merge_boxes a b)), py (c0 (merge_boxes a b))) /\
     c3 (merge_boxes a b) = (px (c0 (merge_boxes a b)), py (c2 (merge_boxes a b))) /\
     c0 (merge_boxes a b)
       = (Z.min (px (c0 a)) (px (c0 b)), Z.min (py (c0 a)) (py (c0 b))) /\
     c2 (merge_boxes a b)
       = (Z.max (px (c2 a)) (px (c2 b)), Z.max (py (c2 a)) (py (c2 b)))) /\
  (forall a a' b b',
     c0 a = c0 a' -> c2 a = c2 a' -> c0 b = c0 b' -> c2 b = c2 b' ->
     merge_boxes a b = merge_boxes a' b') /\
  (forall a b, wf02 a -> wf02 b -> rect (merge_boxes a b)) /\
  (forall results xt yt ft,
     Forall (fun d => wf02 (det_box d)) results ->
     Forall (held results) (group_text_boxes results xt yt ft)) /\
  (forall results xt yt ft pyt pxt out,
     Forall (fun d => wf02 (det_box d)) results ->
     check_paragraph (group_text_boxes results xt yt ft) pyt pxt = inr out ->
     Forall (held results) out).
Proof.
  split_and!.
  - intros a b. by split_and!.
  - intros a a' b b' H0 H2 H0' H2'. unfold merge_boxes.
    by rewrite H0, H2, H0', H2'.
  - apply merge_boxes_rect.
  - apply group_text_boxes_held.
  - intros results xt yt ft pyt pxt out Hwf Hout.
    eapply check_paragraph_held; [|exact Hout]. by apply group_text_boxes_held.
Qed.

Lemma merge_boxes_rect_and_held_boxes_witness :
  let skew := mkBox (0, 0) (7, 3) (10, 10) (1, 9) in
  let next := mkBox (12, 0) (30, 0) (30, 10) (12, 10) in
  let far := mkBox (500, 500) (520, 490) (530, 520) (505, 530) in
  let results := [mkDet far "c" 1; mkDet next "b" 1; mkDet skew "a" 1] in
  rect (merge_boxes skew next) /\
  merge_boxes skew next = merge_boxes (mkBox (0, 0) (0, 0) (10, 10) (0, 0)) next /\
  Forall (held results) (group_text_boxes results 50 90 10) /\
  pipeline results = inr [(mkBox (0, 0) (30, 0) (30, 10) (0, 10), "a b"); (far, "c")] /\
  Forall (held results) [(mkBox (0, 0) (30, 0) (30, 10) (0, 10), "a b"); (far, "c")].
Proof.
  intros skew next far results.
  destruct merge_boxes_rect_and_held_boxes as (_ & Hread & Hrect & Hlines & Hpar).
  assert (Forall (fun d => wf02 (det_box d)) results) as Hwf.
  { repeat constructor; simpl; lia. }
  split_and!.
  - apply Hrect; unfold_geom; lia.
  - apply Hread; reflexivity.
  - apply Hlines. exact Hwf.
  - reflexivity.
  - apply (Hpar results 50 90 10 5 47); [exact Hwf|reflexivity].
Defined.

(** C3, as stated, fails: [group_text_boxes] sorts the list it is given in
    place, so after the call the caller's list holds its detections in a
    different order.  (The same run shows a returned group sharing the box
    object of the detection it was started from: the group at 10 refers to
    the box at 4, the box of the detection at 5.) *)
Lemma group_text_boxes_reorders_its_argument :
  let run := Store.group_text_boxes 6%nat 50 90 10 example_store in
  example_store !! 6%nat = Some (Store.OList [1; 3; 5]%nat) /\
  run.2 !! 6%nat = Some (Store.OList [3; 1; 5]%nat) /\
  run.2 !! 6%nat <> example_store !! 6%nat /\
  run.2 !! 5%nat = Some (Store.ODet 4%nat "milk" 1) /\
  run.2 !! 10%nat = Some (Store.OGroup 4%nat "milk").
Proof. vm_compute. split_and!; try reflexivity. discriminate. Qed.

(** The group that [check_paragraph] grows for the first paragraph is the
    very object [grouped_texts[0]]: the caller's first line group has
    changed after the call. *)
Lemma check_paragraph_grows_first_input_group :
  let lines := Store.group_text_boxes 6%nat 50 90 10 example_store in
  let paragraphs := Store.check_paragraph 7%nat 5 47 lines.2 in
  lines.1 = inr 7%nat /\
  lines.2 !! 7%nat = Some (Store.OList [8; 10]%nat) /\
  lines.2 !! 8%nat = Some (Store.OGroup 9%nat "cafe latte") /\
  paragraphs.2 !! 8%nat = Some (Store.OGroup 13%nat "cafe latte milk").
Proof. vm_compute. by split_and!. Qed.

(** C3, amended.  [group_text_boxes] writes to one object that existed
    before the call: the list [results], which afterwards holds the same
    detection objects in sorted order.  Every other object that existed
    before (every detection tuple, every box) is left as it was; the list
    it returns and the groups in that list are objects allocated by the
    call (a group's box slot may refer to the box of the detection it was
    started from; boxes are never written).  [check_paragraph] leaves
    every object that existed before the call, other than
    [grouped_texts[0]], as it was (the list [grouped_texts], every other
    line group, every box); the list it returns is allocated by the call,
    and so is every group in it after the first.  On the empty list it
    raises with the store untouched. *)
Theorem grouping_store_effects :
  (forall (s0 : Store.store) (results : Store.loc) (ds : list detection) (xt yt ft : Z),
     Store.val_dets s0 results = Some ds ->
     exists s1 items gl,
       Store.group_text_boxes results xt yt ft s0 = (inr (length s0), s1) /\
       s0 !! results = Some (Store.OList items) /\
       s1 !! results = Some (Store.OList (sorted_refs ds items)) /\
       Permutation (sorted_refs ds items) items /\
       Store.val_dets s1 results = Some (sort_by_key sort_key ds) /\
       (forall k o, k <> results -> s0 !! k = Some o -> s1 !! k = Some o) /\
       s1 !! length s0 = Some (Store.OList gl) /\
       Forall (fun g => (length s0 < g)%nat) gl /\
       NoDup gl) /\
  (forall (s0 : Store.store) (grouped_texts first : Store.loc) (rest : list Store.loc)
          (gs : list Group) (yt xt : Z),
     s0 !! grouped_texts = Some (Store.OList (first :: rest)) ->
     Store.val_groups s0 grouped_texts = Some gs ->
     exists s1 head bl,
       Store.check_paragraph grouped_texts yt xt s0 = (inr (length s0), s1) /\
       (forall k o, k <> first -> s0 !! k = Some o -> s1 !! k = Some o) /\
       s1 !! length s0 = Some (Store.OList (head :: bl)) /\
       Forall (fun g => (length s0 < g)%nat) bl /\
       NoDup bl) /\
  (forall (s0 : Store.store) (grouped_texts : Store.loc) (yt xt : Z),
     s0 !! grouped_texts = Some (Store.OList []) ->
     Store.check_paragraph grouped_texts yt xt s0 = (inl IndexError, s0)).
Proof.
  split_and!.
  - intros s0 results ds xt yt ft Hds.
    destruct (group_text_boxes_effect s0 results ds xt yt ft Hds)
      as (s1 & items & gl & H1 & H2 & H3 & H4 & H5 & H6 & H7 & H8 & H9 & _).
    exists s1, items, gl. by split_and!.
  - intros s0 gt first rest gs yt xt Hgt Hgs.
    destruct (check_paragraph_effect s0 gt first rest gs yt xt Hgt Hgs)
      as (s1 & bl & out & H1 & H2 & H3 & H4 & H5 & _).
    exists s1, first, bl. split_and!; try done. by apply NoDup_cons in H5 as [_ ?].
  - intros s0 gt yt xt. apply check_paragraph_run_empty.
Qed.

Lemma grouping_store_effects_witness :
  Store.val_dets example_store 6%nat = Some example_detections /\
  (Store.group_text_boxes 6%nat 50 90 10 example_store).2 !! 1%nat
  = Some (Store.ODet 0%nat "latte" 1) /\
  (Store.check_paragraph 7%nat 5 47
     (Store.group_text_boxes 6%nat 50 90 10 example_store).2).2 !! 10%nat
  = Some (Store.OGroup 4%nat "milk").
Proof.
  destruct grouping_store_effects as (Hlines & Hparag & _).
  assert (Store.val_dets example_store 6%nat = Some example_detections) as Hds
    by reflexivity.
  split; [exact Hds|].
  destruct (Hlines example_store 6%nat example_detections 50 90 10 Hds)
    as (s1 & items & gl & Hrun & _ & _ & _ & _ & Hkeep & _).
  rewrite Hrun. simpl. split.
  - apply Hkeep; [lia|reflexivity].
  - assert (s1 = (Store.group_text_boxes 6%nat 50 90 10 example_store).2) as ->
      by (by rewrite Hrun).
    set (s1 := (Store.group_text_boxes 6%nat 50 90 10 example_store).2).
    destruct (Hparag s1 7%nat 8%nat [10%nat]
                [(mkBox (0, 0) (80, 0) (80, 20) (0, 20), "cafe latte");
                 (mkBox (2, 23) (40, 23) (40, 43) (2, 43), "milk")] 5 47)
      as (s2 & head & bl & Hrun2 & Hkeep2 & _); [reflexivity|reflexivity|].
    rewrite Hrun2. simpl. apply Hkeep2; [lia|reflexivity].
Defined.

(** C9. Running the two passes twice gives the same groups: on the very
    list object the first run was given (which that run has sorted in
    place), and on any other list in any store whose detections have the
    same values.  In each case the groups are those of the value-level
    pipeline on the listed detections. *)
Theorem pipeline_twice_same_output :
  forall (s0 : Store.store) (results : Store.loc) (ds : list detection),
    Store.val_dets s0 results = Some ds ->
    let run1 := Store.pipeline results s0 in
    let run2 := Store.pipeline results run1.2 in
    Store.observe run1 = pipeline ds /\
    Store.observe run2 = Store.observe run1 /\
    (forall (s0' : Store.store) (results' : Store.loc),
       Store.val_dets s0' results' = Some ds ->
       Store.observe (Store.pipeline results' s0') = Store.observe run1).
Proof.
  intros s0 results ds Hds run1 run2.
  destruct (pipeline_refines s0 results ds Hds) as [Hobs1 Hds1].
  destruct (pipeline_refines run1.2 results _ Hds1) as [Hobs2 _].
  split_and!.
  - exact Hobs1.
  - subst run2. rewrite Hobs2. subst run1. rewrite Hobs1. apply pipeline_sorted_input.
  - intros s0' results' Hds'.
    destruct (pipeline_refines s0' results' ds Hds') as [Hobs' _].
    subst run1. by rewrite Hobs', Hobs1.
Qed.

Lemma pipeline_twice_same_output_witness :
  Store.val_dets example_store 6%nat = Some example_detections /\
  Store.observe (Store.pipeline 6%nat (Store.pipeline 6%nat example_store).2)
  = Store.observe (Store.pipeline 6%nat example_store).
Proof.
  assert (Store.val_dets example_store 6%nat = Some example_detections) as Hds
    by reflexivity.
  split; [exact Hds|].
  destruct (pipeline_twice_same_output example_store 6%nat example_detections Hds)
    as (_ & H & _).
  exact H.
Defined.

(** * Further verified properties *)

(** X1. Merging a box into a merge that already includes it changes
    nothing, on either side; a box in the fixed winding order merged with
    itself is returned unchanged. *)
Theorem merge_boxes_idempotent :
  (forall a b, merge_boxes (merge_boxes a b) b = merge_boxes a b /\
               merge_boxes (merge_boxes a b) a = merge_boxes a b) /\
  (forall a, winding a -> merge_boxes a a = a).
Proof.
  split.
  - intros a b. split; [apply merge_boxes_idem|].
    by rewrite (merge_boxes_comm a b), merge_boxes_idem.
  - apply winding_merge_self.
Qed.

Lemma merge_boxes_idempotent_witness :
  let a := mkBox (0, 0) (40, 0) (40, 20) (0, 20) in
  winding a /\ merge_boxes a a = a.
Proof.
  intros a. assert (winding a) as Hw by (split; reflexivity).
  split; [exact Hw|]. destruct merge_boxes_idempotent as [_ H]. exact (H a Hw).
Defined.

(** X2. The extent of [merge_boxes a b] includes the extents of [a] and of
    [b] (corners 0/2) and is included in every extent that includes both:
    it is the smallest such extent. *)
Theorem merge_boxes_least_extent :
  forall a b,
    ext_le a (merge_boxes a b) /\ ext_le b (merge_boxes a b) /\
    (forall r, ext_le a r -> ext_le b r -> ext_le (merge_boxes a b) r).
Proof.
  intros a b. split_and!.
  - apply ext_le_merge_l.
  - apply ext_le_merge_r.
  - intros r. apply ext_le_merge_least.
Qed.

Lemma merge_boxes_least_extent_witness :
  let a := mkBox (0, 0) (40, 0) (40, 20) (0, 20) in
  let b := mkBox (45, 5) (80, 5) (80, 30) (45, 30) in
  let r := mkBox (-10, -10) (100, -10) (100, 100) (-10, 100) in
  ext_le a r /\ ext_le b r /\ ext_le (merge_boxes a b) r.
Proof.
  intros a b r.
  assert (ext_le a r) as Ha by (unfold ext_le, px, py; simpl; lia).
  assert (ext_le b r) as Hb by (unfold ext_le, px, py; simpl; lia).
  split; [exact Ha|]. split; [exact Hb|].
  destruct (merge_boxes_least_extent a b) as (_ & _ & H). exact (H r Ha Hb).
Defined.

(** X3. [group_text_boxes] returns at most as many groups as it is given
    detections, and at least one when there is a detection.
    [check_paragraph] raises [IndexError] exactly on the empty list and
    otherwise returns between one paragraph and as many as it was given
    line groups.  Chained, the two passes raise exactly when there is no
    detection. *)
Theorem group_counts :
  (forall results xt yt ft,
     (length (group_text_boxes results xt yt ft) <= length results)%nat /\
     (results <> [] -> (1 <= length (group_text_boxes results xt yt ft))%nat)) /\
  (forall gs yt xt,
     (check_paragraph gs yt xt = inl IndexError <-> gs = []) /\
     (forall out, check_paragraph gs yt xt = inr out ->
                  (1 <= length out <= length gs)%nat)) /\
  (forall results,
     (pipeline results = inl IndexError <-> results = []) /\
     pipeline results <> inl Stuck /\
     (forall out, pipeline results = inr out ->
                  (1 <= length out <= length results)%nat)).
Proof.
  assert (forall gs yt xt,
     (check_paragraph gs yt xt = inl IndexError <-> gs = []) /\
     check_paragraph gs yt xt <> inl Stuck /\
     (forall out, check_paragraph gs yt xt = inr out ->
                  (1 <= length out <= length gs)%nat)) as Hparag.
  { intros [|first rest] yt xt; simpl; split_and!; try done.
    intros out [= <-]. rewrite fold_parag_step_place_line.
    pose proof (fold_place_line_length yt xt rest [first]). simpl in *. lia. }
  split_and!.
  - apply group_text_boxes_length.
  - intros gs yt xt. destruct (Hparag gs yt xt) as (H1 & _ & H3). by split.
  - intros results. unfold pipeline.
    set (lines := group_text_boxes results _ _ _).
    destruct (Hparag lines parag_y_threshold_default parag_x_threshold_default)
      as (H1 & H2 & H3).
    destruct (group_text_boxes_length results x_threshold_default y_threshold_default
                font_threshold_default) as [Hle Hge]. fold lines in Hle, Hge.
    split_and!.
    + rewrite H1. split.
      * intros Hl. destruct results as [|d results]; [done|].
        exfalso. rewrite Hl in Hge. simpl in Hge. specialize (Hge ltac:(done)). lia.
      * by intros ->.
    + exact H2.
    + intros out Hout. specialize (H3 out Hout). lia.
Qed.

Lemma group_counts_witness :
  (1 <= length (group_text_boxes example_detections 50 90 10))%nat /\
  (exists out, pipeline example_detections = inr out /\ (1 <= length out <= 3)%nat).
Proof.
  destruct group_counts as (Hlines & _ & Hpipe). split.
  - destruct (Hlines example_detections 50 90 10) as [_ H]. apply H. discriminate.
  - destruct (Hpipe example_detections) as (_ & _ & H).
    eexists. split; [reflexivity|]. apply (H _ eq_refl).
Defined.

(** X4. When one of the thresholds of [group_text_boxes] is zero or
    negative no detection is ever merged: the result is the sorted
    detections, one group each.  When one of the thresholds of
    [check_paragraph] is zero or negative it returns the line groups it was
    given, unchanged and in order. *)
Theorem nonpositive_thresholds_merge_nothing :
  (forall results xt yt ft,
     xt <= 0 \/ yt <= 0 \/ ft <= 0 ->
     group_text_boxes results xt yt ft = first_two <$> sort_by_key sort_key results) /\
  (forall gs yt xt,
     yt <= 0 \/ xt <= 0 -> gs <> [] -> check_paragraph gs yt xt = inr gs).
Proof.
  split.
  - intros results xt yt ft H. rewrite group_text_boxes_group_lines. unfold group_lines.
    destruct (sort_by_key sort_key results) as [|d ds]; [reflexivity|].
    by rewrite group_lines_from_nonpositive.
  - intros [|first rest] yt xt H Hne; [done|]. simpl.
    by rewrite fold_parag_step_nonpositive.
Qed.

Lemma nonpositive_thresholds_merge_nothing_witness :
  group_text_boxes example_detections 0 90 10
  = first_two <$> sort_by_key sort_key example_detections /\
  check_paragraph (first_two <$> example_detections) 5 0
  = inr (first_two <$> example_detections).
Proof.
  destruct nonpositive_thresholds_merge_nothing as [H1 H2]. split.
  - apply H1. lia.
  - apply H2; [lia|discriminate].
Defined.

(** X5. The groups [group_text_boxes] returns are, in order, what
    consecutive runs of the sorted detections grow into (box merged and
    text appended member by member), and within a run every detection has
    its top edge at or below the top edge of the run's first detection, by
    less than [y_threshold].  In particular two detections whose top edges
    are [y_threshold] or more apart are never put in one line. *)
Theorem lines_are_bands :
  forall results xt yt ft,
    (exists runs,
       concat runs = sort_by_key sort_key results /\
       Forall2 group_of_run runs (group_text_boxes results xt yt ft) /\
       Forall (in_band yt) runs) /\
    (forall a b,
       results = [a; b] ->
       yt <= Z.abs (py (c0 (det_box a)) - py (c0 (det_box b))) ->
       length (group_text_boxes results xt yt ft) = 2%nat).
Proof.
  intros results xt yt ft.
  pose proof (group_text_boxes_bands results xt yt ft) as Hruns.
  split; [exact Hruns|].
  intros a b -> Hfar. destruct Hruns as (runs & Hc & Hg & Hb).
  pose proof (Forall2_length _ _ _ Hg) as Hlen.
  destruct (group_text_boxes_length [a; b] xt yt ft) as [Hle Hge].
  specialize (Hge ltac:(done)). simpl in Hle.
  assert (length runs <> 1%nat); [|lia].
  intros Hone. destruct runs as [|run [|? ?]]; try done.
  cbn [concat] in Hc. rewrite app_nil_r in Hc.
  rewrite Forall_singleton, Hc in Hb. clear Hg Hlen Hone Hc.
  pose proof (sort_by_key_perm sort_key [a; b]) as Hperm.
  destruct (sort_by_key sort_key [a; b]) as [|x [|y [|? ?]]];
    try (apply Permutation_length in Hperm; simpl in Hperm; lia).
  cbn [in_band] in Hb. rewrite Forall_singleton in Hb.
  assert ((x = a /\ y = b) \/ (x = b /\ y = a)) as [[-> ->]|[-> ->]]; [|lia|lia].
  by apply Permutation_length_2 in Hperm.
Qed.

Lemma lines_are_bands_witness :
  let a := mkDet (mkBox (0, 0) (40, 0) (40, 20) (0, 20)) "top" 1 in
  let b := mkDet (mkBox (0, 200) (40, 200) (40, 220) (0, 220)) "bottom" 1 in
  length (group_text_boxes [a; b] 50 90 10) = 2%nat.
Proof.
  intros a b. destruct (lines_are_bands [a; b] 50 90 10) as [_ H].
  apply (H a b); [reflexivity|]. unfold py; simpl. lia.
Defined.

(** X6. When no two detections have the same top-left corner, the result
    of [group_text_boxes], and of the two passes chained, does not depend
    on the order in which the detections are listed. *)
Theorem grouping_ignores_input_order :
  forall (results results' : list detection),
    Permutation results results' ->
    NoDup (sort_key <$> results) ->
    (forall xt yt ft,
       group_text_boxes results xt yt ft = group_text_boxes results' xt yt ft) /\
    pipeline results = pipeline results'.
Proof.
  intros results results' Hperm Hnd.
  pose proof (sort_by_key_perm_invariant sort_key _ _ Hperm Hnd) as Hsort.
  assert (forall xt yt ft,
            group_text_boxes results xt yt ft = group_text_boxes results' xt yt ft) as H.
  { intros xt yt ft. unfold group_text_boxes. by rewrite Hsort. }
  split; [exact H|]. unfold pipeline. by rewrite H.
Qed.

Lemma grouping_ignores_input_order_witness :
  pipeline example_detections = pipeline (reverse example_detections).
Proof.
  destruct (grouping_ignores_input_order example_detections (reverse example_detections))
    as [_ H].
  - apply Permutation_sym, reverse_Permutation.
  - vm_compute. repeat constructor; intros Hin; inversion Hin; subst;
      repeat match goal with H : _ ∈ _ |- _ => inversion H; clear H; subst end.
  - exact H.
Defined.

(** X7. Moving every detection by the same vector moves every resulting
    group by that vector and changes nothing else: [group_text_boxes],
    [check_paragraph] and their chaining depend on relative positions
    only. *)
Theorem grouping_translation_invariant :
  forall dx dy : Z,
    (forall results xt yt ft,
       group_text_boxes (shift_det dx dy <$> results) xt yt ft
       = shift_group dx dy <$> group_text_boxes results xt yt ft) /\
    (forall gs yt xt,
       check_paragraph (shift_group dx dy <$> gs) yt xt
       = shift_result dx dy (check_paragraph gs yt xt)) /\
    (forall results,
       pipeline (shift_det dx dy <$> results) = shift_result dx dy (pipeline results)).
Proof.
  intros dx dy. split_and!.
  - intros. apply group_text_boxes_shift.
  - intros. apply check_paragraph_shift.
  - intros results. unfold pipeline.
    by rewrite group_text_boxes_shift, check_paragraph_shift.
Qed.

(** X8. After the two passes every detection is still covered: some
    returned paragraph has an extent that includes the detection's extent
    (corners 0/2).  So, the coordinates being integers, a left click on
    any pixel of a detection's extent always copies a text: the lowercased
    text of a returned group whose box contains that pixel. *)
Theorem every_detection_stays_clickable :
  forall (results : list detection) (out : list Group) (d : detection),
    pipeline results = inr out ->
    d ∈ results ->
    covers out (det_box d) /\
    (forall (lower : string -> string) (Img : Type) (x y flags : Z) (img : Img) (w : world),
       inside (det_box d) (x, y) ->
       exists q, q ∈ out /\ inside q.1 (x, y) /\
         clipboard (mouse_callback lower EVENT_LBUTTONDOWN x y flags
                      (number_group <$> out, img) w)
         = Some (lower q.2)).
Proof.
  intros results out d Hout Hd.
  assert (covers out (det_box d)) as Hcov.
  { unfold pipeline in Hout. eapply covers_trans.
    - by apply group_text_boxes_covers.
    - intros g Hg. by eapply check_paragraph_covers. }
  split; [exact Hcov|].
  intros lower Img x y flags img w Hhit. destruct Hcov as (p & Hp & Hle).
  assert (number_group p ∈ filter (box_hit x y) (number_group <$> out)) as Hin.
  { apply list_elem_of_filter. split; [|by apply list_elem_of_fmap_2].
    apply box_hit_number_group. by eapply inside_ext_le. }
  unfold mouse_callback. simpl. rewrite click_loop_hits. simpl.
  destruct (filter (box_hit x y) (number_group <$> out)) as [|q' hits _] eqn:E using rev_ind.
  - by apply not_elem_of_nil in Hin.
  - assert (q' ∈ filter (box_hit x y) (number_group <$> out)) as Hq
      by (rewrite E; apply elem_of_app; right; apply list_elem_of_here).
    apply list_elem_of_filter in Hq as [Hqhit Hqin].
    apply list_elem_of_fmap in Hqin as (q & -> & Hqin).
    exists q. split_and!; [done|by apply box_hit_number_group|].
    unfold clipboard. simpl. rewrite fmap_app. csimpl. by rewrite app_assoc, last_snoc.
Qed.

Lemma every_detection_stays_clickable_witness :
  exists q : Group,
    inside q.1 (60, 10) /\
    clipboard (mouse_callback ascii_lower EVENT_LBUTTONDOWN 60 10 0
                 (number_group <$>
                    [(mkBox (0, 0) (80, 0) (80, 43) (0, 43), "cafe latte milk")], tt)
                 (mkWorld [] []))
    = Some (ascii_lower q.2).
Proof.
  destruct (every_detection_stays_clickable example_detections
              [(mkBox (0, 0) (80, 0) (80, 43) (0, 43), "cafe latte milk")]
              (mkDet (mkBox (45, 0) (80, 0) (80, 20) (45, 20)) "latte" 1))
    as [_ H].
  - reflexivity.
  - apply list_elem_of_here.
  - destruct (H ascii_lower unit 60 10 0 tt (mkWorld [] [])) as (q & _ & Hq & Hclip).
    + unfold inside, px, py; simpl. lia.
    + exists q. by split.
Defined.

(** X9. [check_paragraph] keeps every word: the words of the texts it
    returns are the words of the texts of the line groups it was given,
    each as often.  So do the two passes chained, from the detections'
    texts to the paragraphs' texts. *)
Theorem paragraphs_keep_every_word :
  (forall (gs out : list Group) yt xt,
     check_paragraph gs yt xt = inr out ->
     Permutation (flat_map words out.*2) (flat_map words gs.*2)) /\
  (forall (results : list detection) (out : list Group),
     pipeline results = inr out ->
     Permutation (flat_map words out.*2)
                 (flat_map (fun d => words (det_text d)) results)).
Proof.
  split.
  - intros gs out yt xt. apply check_paragraph_words.
  - intros results out Hout. unfold pipeline in Hout.
    rewrite (check_paragraph_words _ _ _ _ Hout), group_text_boxes_words.
    apply Permutation_flat_map, sort_by_key_perm.
Qed.

Lemma paragraphs_keep_every_word_witness :
  Permutation (words "cafe latte milk") ["latte"; "cafe"; "milk"].
Proof.
  destruct paragraphs_keep_every_word as [_ H].
  apply (H example_detections
           [(mkBox (0, 0) (80, 0) (80, 43) (0, 43), "cafe latte milk")]).
  reflexivity.
Defined.

(** X11. The list [check_paragraph] returns starts with the very object
    [grouped_texts[0]].  After the call (on a list in which that object
    does not occur again) the caller's [grouped_texts] therefore shows the
    first returned paragraph in place of its first line group, followed by
    its other line groups unchanged. *)
Theorem check_paragraph_shares_first_group :
  forall (s0 : Store.store) (grouped_texts first : Store.loc) (rest : list Store.loc)
         (gs : list Group) (yt xt : Z),
    s0 !! grouped_texts = Some (Store.OList (first :: rest)) ->
    Store.val_groups s0 grouped_texts = Some gs ->
    first ∉ rest ->
    exists s1 bl hd tl,
      Store.check_paragraph grouped_texts yt xt s0 = (inr (length s0), s1) /\
      check_paragraph gs yt xt = inr (hd :: tl) /\
      s1 !! length s0 = Some (Store.OList (first :: bl)) /\
      Store.val_groups s1 (length s0) = Some (hd :: tl) /\
      Store.val_group s1 first = Some hd /\
      Store.val_groups s1 grouped_texts = Some (hd :: drop 1 gs).
Proof. apply check_paragraph_caller_view. Qed.

Lemma check_paragraph_shares_first_group_witness :
  let s0 := (Store.group_text_boxes 6%nat 50 90 10 example_store).2 in
  Store.val_groups s0 7%nat
  = Some [(mkBox (0, 0) (80, 0) (80, 20) (0, 20), "cafe latte");
          (mkBox (2, 23) (40, 23) (40, 43) (2, 43), "milk")] /\
  Store.val_groups (Store.check_paragraph 7%nat 5 47 s0).2 7%nat
  = Some [(mkBox (0, 0) (80, 0) (80, 43) (0, 43), "cafe latte milk");
          (mkBox (2, 23) (40, 23) (40, 43) (2, 43), "milk")].
Proof.
  intros s0.
  assert (Store.val_groups s0 7%nat
          = Some [(mkBox (0, 0) (80, 0) (80, 20) (0, 20), "cafe latte");
                  (mkBox (2, 23) (40, 23) (40, 43) (2, 43), "milk")]) as Hgs
    by reflexivity.
  split; [exact Hgs|].
  destruct (check_paragraph_shares_first_group s0 7%nat 8%nat [10%nat]
              [(mkBox (0, 0) (80, 0) (80, 20) (0, 20), "cafe latte");
               (mkBox (2, 23) (40, 23) (40, 43) (2, 43), "milk")] 5 47)
    as (s1 & bl & hd & tl & Hrun & Hpure & _ & _ & _ & Hview);
    [reflexivity|exact Hgs| |].
  - intros Hin. apply list_elem_of_singleton in Hin. discriminate Hin.
  - rewrite Hrun. simpl. rewrite Hview. injection Hpure as <- _. reflexivity.
Defined.

(** X12. The order in which [group_text_boxes] walks the detections is a
    stable one: detections with the same top-left corner are taken in the
    order in which they were listed, and a list already in key order is
    walked as it is. *)
Theorem sort_is_stable :
  forall (results : list detection),
    (forall k, filter (fun d => sort_key d = k) (sort_by_key sort_key results)
               = filter (fun d => sort_key d = k) results) /\
    (StronglySorted (key_le sort_key) results ->
     sort_by_key sort_key results = results) /\
    sort_by_key sort_key (sort_by_key sort_key results) = sort_by_key sort_key results.
Proof.
  intros results. split_and!.
  - intros k. apply sort_by_key_stable.
  - apply sort_by_key_fixed.
  - apply sort_by_key_idem.
Qed.

Lemma sort_is_stable_witness :
  let a := mkDet (mkBox (0, 0) (40, 0) (40, 20) (0, 20)) "first" 1 in
  let b := mkDet (mkBox (0, 0) (90, 0) (90, 20) (0, 20)) "second" 1 in
  sort_by_key sort_key [a; b] = [a; b].
Proof.
  intros a b. destruct (sort_is_stable [a; b]) as (_ & H & _). apply H.
  repeat constructor; unfold key_le, tuple_le, sort_key, px, py; simpl; lia.
Defined.

(** X13. The loop of [main] is left at the first value of [waitKey] whose
    low byte is the code of 'q' (113), whatever the higher bits are; the
    value -1 that [waitKey] returns when no key was pressed never ends
    it. *)
Theorem main_loop_ends_on_q :
  (forall key, quit_requested key = true <-> key mod 256 = 113) /\
  quit_requested (-1) = false /\
  (forall keys,
     event_loop keys
     = (fun ik : nat * Z => S ik.1) <$> list_find (fun key => key mod 256 = 113) keys).
Proof.
  assert (forall key, quit_requested key = true <-> key mod 256 = 113) as Hq.
  { intros key. unfold quit_requested.
    change 255 with (Z.ones 8). rewrite Z.land_ones by lia.
    change (2 ^ 8) with 256. change (Z.of_nat (nat_of_ascii "q")) with 113.
    apply Z.eqb_eq. }
  split_and!; [exact Hq|reflexivity|].
  induction keys as [|key keys IH]; [reflexivity|]. simpl.
  destruct (quit_requested key) eqn:E.
  - apply Hq in E. by rewrite decide_True.
  - rewrite decide_False by (intros H; apply Hq in H; congruence).
    rewrite IH. by destruct (list_find _ keys) as [[i k]|].
Qed.

Lemma main_loop_ends_on_q_witness :
  quit_requested (113 + 256 * 4) = true /\ event_loop [-1; 97; 113 + 256 * 4; 113] = Some 3%nat.
Proof.
  destruct main_loop_ends_on_q as (Hq & _ & Hloop). split.
  - apply Hq. reflexivity.
  - rewrite Hloop. reflexivity.
Defined.
